(** * simplelib: the open-addressing hash map of [src/hashmap.c]

    A shallow embedding of the double-hashing string map and the
    properties of its probe function, lookup, insertion, removal and
    resize.

    Conventions of the embedding:
    - [size_t] is 64 bits wide: its values are integers in [Z], and every
      arithmetic operation of the source is followed by its reduction
      modulo [2^64] ([wrap]);
    - a [const char*] key is an [option string], [None] being the null
      pointer, and [strcmp] is equality of strings; a [void*] value is an
      address in [Z], [NULL] being [0];
    - the slot array is a list read with [!!] and written with
      [<[ _ := _ ]>]; a null array is [None];
    - the three [while] loops of the source may spin forever, so they
      take a [fuel] (one unit per evaluation of the loop condition); an
      operation yields an [outcome]: a result, undefined behaviour of the
      C program, or exhaustion of the fuel;
    - the results of [malloc], [calloc] and [strdup] are inputs of the
      operations that call them ([true]: the allocation succeeds). *)

From Stdlib Require Import ZArith Lia.
From stdpp Require Import base numbers list strings.

Local Open Scope Z_scope.

(** ** Machine integers and results *)

Definition size_t_modulus : Z := 2 ^ 64.

(** Reduction of an integer to the range of [size_t]. *)
Definition wrap (z : Z) : Z := z mod size_t_modulus.

Definition NULL : Z := 0.

Inductive outcome (A : Type) : Type :=
| Ret (a : A)      (* the call returns [a] *)
| Undefined        (* division by zero, null or out-of-range access *)
| OutOfFuel.       (* the loop did not finish within the fuel *)

Arguments Ret {A} a.
Arguments Undefined {A}.
Arguments OutOfFuel {A}.

Definition bind {A B : Type} (o : outcome A) (f : A -> outcome B) : outcome B :=
  match o with
  | Ret a => f a
  | Undefined => Undefined
  | OutOfFuel => OutOfFuel
  end.

Notation "'let*' x := c1 'in' c2" := (bind c1 (fun x => c2))
  (at level 10, x name, c1 at level 100, c2 at level 200).

(** ** The hashing collaborator *)

(** Modelled from the spec: [fnv32a_hash_str] is declared in [hash.h] and
    defined in [hash.c], neither of which is part of the sources at hand.
    The spec treats it as a deterministic function from byte strings to
    fixed-width unsigned integers, and [hashmap.c] documents it as the
    FNV-1a hash; this is the 32-bit FNV-1a function (offset basis
    2166136261, prime 16777619).  The operations below take the hash as a
    parameter; this instance is used for the concrete scenarios only. *)
Definition fnv32a_hash_str (s : string) : Z :=
  fold_left
    (fun h c => (Z.lxor h (Z.of_N (Ascii.N_of_ascii c)) * 16777619) mod 2 ^ 32)
    (String.list_ascii_of_string s) 2166136261.

(** ** Data model *)

Definition HT_EXPANSION_FACTOR : Z := 2.
Definition HT_PRIME : Z := 37.

Inductive HashSlotMarker : Type := EMPTY | INSERTED | DELETED.

Record HashSlot : Type := mkSlot {
  slot_key : option string;
  slot_value : Z;
  slot_state : HashSlotMarker
}.

Record HashMap : Type := mkMap {
  hm_slots : option (list HashSlot);
  hm_size : Z;
  hm_capacity : Z
}.

(** A slot as [calloc] leaves it. *)
Definition zero_slot : HashSlot := mkSlot None NULL EMPTY.

(** The condition of the three probing loops:
    [slots[index].key != NULL && slots[index].state != EMPTY]. *)
Definition occupied (s : HashSlot) : bool :=
  match slot_key s, slot_state s with
  | Some _, INSERTED | Some _, DELETED => true
  | _, _ => false
  end.

(** Outcome of a probing loop: it left through the [strcmp] branch at a
    slot holding the key, or through the loop condition at a free slot. *)
Inductive probe_result : Type :=
| Hit (index : Z) (s : HashSlot)
| Miss (index : Z).

Definition final_index (r : probe_result) : Z :=
  match r with Hit j _ => j | Miss j => j end.

Section Operations.

Variable hash_str : string -> Z.

(** [hash_key], lines 19-27. *)
Definition hash_key (str : option string) (rounds m : Z) : outcome Z :=
  match str with
  | None => Ret 0
  | Some s =>
      let k := wrap (hash_str s) in
      if m =? 0 then Undefined else
      let h1 := k mod m in
      let d := wrap (m - HT_PRIME) in
      if d =? 0 then Undefined else
      let h2 := wrap (HT_PRIME + k mod d) in
      Ret (wrap (h1 + wrap (rounds * h2)) mod m)
  end.



(** [hashmap_create], lines 45-58.  The result of [malloc] is used
    unchecked. *)
Definition hashmap_create (malloc_ok calloc_ok : bool) (capacity : Z)
  : outcome (option HashMap) :=
  if malloc_ok then
    if calloc_ok then
      Ret (Some (mkMap (Some (replicate (Z.to_nat capacity) zero_slot)) 0 capacity))
    else Ret None
  else Undefined.

(** The loop at lines 80-92, 162-177 and 188-197, entered with the
    current [index] and [checks]. *)
Fixpoint probe (fuel : nat) (slots : list HashSlot) (capacity : Z)
    (key : option string) (index checks : Z) : outcome probe_result :=
  match fuel with
  | O => OutOfFuel
  | S fuel' =>
      match slots !! Z.to_nat index with
      | None => Undefined
      | Some s =>
          if occupied s then
            match slot_key s, key with
            | Some sk, Some k =>
                if String.eqb sk k then Ret (Hit index s)
                else
                  let checks' := wrap (checks + 1) in
                  let* index' := hash_key key checks' capacity in
                  probe fuel' slots capacity key index' checks'
            | _, _ => Undefined
            end
          else Ret (Miss index)
      end
  end.

(** [hashtable_slot_insert], lines 69-105: the array after the call and
    the returned key pointer. *)
Definition hashtable_slot_insert (fuel : nat) (strdup_ok : bool)
    (slots : option (list HashSlot)) (capacity : Z)
    (key : option string) (value : Z) (cpy : Z)
  : outcome (option (list HashSlot) * option string) :=
  match slots with
  | None => Ret (None, None)
  | Some l =>
      let* index := hash_key key 0 capacity in
      let* r := probe fuel l capacity key index 0 in
      match r with
      | Hit i s =>
          Ret (Some (<[Z.to_nat i := mkSlot (slot_key s) value (slot_state s)]> l),
               slot_key s)
      | Miss i =>
          let store :=
            Ret (Some (<[Z.to_nat i := mkSlot key value INSERTED]> l), key) in
          if cpy =? 0 then
            match key with
            | None => Undefined
            | Some _ => if strdup_ok then store else Ret (Some l, None)
            end
          else store
      end
  end.

(** The [for] loop of [hashtable_expand], lines 120-126, from index [i]
    with [n] iterations left. *)
Fixpoint rehash (fuel : nat) (old : option (list HashSlot))
    (new_slots : option (list HashSlot)) (new_capacity : Z)
    (i : Z) (n : nat) : outcome (option (list HashSlot)) :=
  match n with
  | O => Ret new_slots
  | S n' =>
      match old with
      | None => Undefined
      | Some l =>
          match l !! Z.to_nat i with
          | None => Undefined
          | Some slot =>
              let* new_slots' := match slot_state slot with
                | INSERTED =>
                    let* r := hashtable_slot_insert fuel true new_slots new_capacity
                           (slot_key slot) (slot_value slot) 1 in
                    Ret (fst r)
                | _ => Ret new_slots
                end in
              rehash fuel old new_slots' new_capacity (i + 1) n'
          end
      end
  end.

(** [hashtable_expand], lines 115-136: the table after the call and the
    returned capacity. *)
Definition hashtable_expand (fuel : nat) (calloc_ok : bool) (hm : HashMap)
  : outcome (HashMap * Z) :=
  let new_capacity := wrap (hm_capacity hm * HT_EXPANSION_FACTOR) in
  let new_slots :=
    if calloc_ok then Some (replicate (Z.to_nat new_capacity) zero_slot)
    else None in
  let* new_slots' := rehash fuel (hm_slots hm) new_slots new_capacity 0
                  (Z.to_nat (hm_capacity hm)) in
  Ret (mkMap new_slots' (hm_size hm) new_capacity, new_capacity).

(** [hashmap_insert], lines 138-152. *)
Definition hashmap_insert (fuel : nat) (calloc_ok strdup_ok : bool)
    (hm : HashMap) (key : option string) (value : Z)
  : outcome (HashMap * option string) :=
  match hm_slots hm with
  | None => Ret (hm, None)
  | Some _ =>
      if value =? NULL then Ret (hm, None) else
      let capacity := hm_capacity hm in
      let* e := (if hm_size hm >=? capacity / HT_EXPANSION_FACTOR
            then hashtable_expand fuel calloc_ok hm
            else Ret (hm, capacity)) in
      let hm1 := fst e in
      let capacity := snd e in
      let* r := hashtable_slot_insert fuel strdup_ok (hm_slots hm1) capacity key value 0 in
      let hm2 := mkMap (fst r) (hm_size hm1) (hm_capacity hm1) in
      match snd r with
      | None => Ret (hm2, None)
      | Some _ => Ret (mkMap (fst r) (wrap (hm_size hm1 + 1)) (hm_capacity hm1), snd r)
      end
  end.

(** [hashmap_remove], lines 155-181. *)
Definition hashmap_remove (fuel : nat) (hm : HashMap) (key : option string)
  : outcome (HashMap * Z) :=
  let* index := hash_key key 0 (hm_capacity hm) in
  match hm_slots hm with
  | None => Undefined
  | Some l =>
      let* r := probe fuel l (hm_capacity hm) key index 0 in
      match r with
      | Hit i _ =>
          Ret (mkMap (Some (<[Z.to_nat i := mkSlot None NULL DELETED]> l))
                     (wrap (hm_size hm - 1)) (hm_capacity hm), 1)
      | Miss _ => Ret (hm, 0)
      end
  end.

(** [hashmap_get], lines 183-201. *)
Definition hashmap_get (fuel : nat) (hm : HashMap) (key : option string)
  : outcome Z :=
  match key with
  | None => Ret NULL
  | Some _ =>
      let* index := hash_key key 0 (hm_capacity hm) in
      match hm_slots hm with
      | None => Undefined
      | Some l =>
          let* r := probe fuel l (hm_capacity hm) key index 0 in
          match r with
          | Hit _ s => Ret (slot_value s)
          | Miss _ => Ret NULL
          end
      end
  end.

End Operations.

(** ** Sequences of operations *)

(** A call of the public interface with a non-null key, all allocations
    succeeding. *)
Inductive operation : Type :=
| Insert (key : string) (value : Z)
| Remove (key : string).

Definition perform (hash_str : string -> Z) (fuel : nat) (hm : HashMap)
    (o : operation) : outcome HashMap :=
  match o with
  | Insert k v =>
      let* r := hashmap_insert hash_str fuel true true hm (Some k) v in Ret (fst r)
  | Remove k =>
      let* r := hashmap_remove hash_str fuel hm (Some k) in Ret (fst r)
  end.

Fixpoint run (hash_str : string -> Z) (fuel : nat) (ops : list operation)
    (hm : HashMap) : outcome HashMap :=
  match ops with
  | [] => Ret hm
  | o :: ops' =>
      let* hm' := perform hash_str fuel hm o in run hash_str fuel ops' hm'
  end.

(** The table that [hashmap_create] returns when both allocations
    succeed. *)
Definition fresh (capacity : Z) : HashMap :=
  mkMap (Some (replicate (Z.to_nat capacity) zero_slot)) 0 capacity.

Definition live (k : string) (v : Z) : HashSlot := mkSlot (Some k) v INSERTED.
Definition tombstone : HashSlot := mkSlot None NULL DELETED.

(** ** Probing runs *)

Section Probing.

Variable hash_str : string -> Z.

(** [probes slots capacity k index checks n r]: entered at [index] with
    the counter at [checks], the loop leaves with [r] after going [n]
    times through its body. *)
Inductive probes (slots : list HashSlot) (capacity : Z) (k : string)
  : Z -> Z -> nat -> probe_result -> Prop :=
| probes_hit index checks s :
    slots !! Z.to_nat index = Some s ->
    occupied s = true ->
    slot_key s = Some k ->
    probes slots capacity k index checks 0 (Hit index s)
| probes_miss index checks s :
    slots !! Z.to_nat index = Some s ->
    occupied s = false ->
    probes slots capacity k index checks 0 (Miss index)
| probes_next index checks s sk index' n r :
    slots !! Z.to_nat index = Some s ->
    occupied s = true ->
    slot_key s = Some sk ->
    sk <> k ->
    hash_key hash_str (Some k) (wrap (checks + 1)) capacity = Ret index' ->
    probes slots capacity k index' (wrap (checks + 1)) n r ->
    probes slots capacity k index checks (S n) r.


(** A slot that makes the loop go on: taken, by another key. *)
Definition other_key (k : string) (s : HashSlot) : Prop :=
  occupied s = true /\ exists sk, slot_key s = Some sk /\ sk <> k.



(** Key [k] is found with value [v]: the loop entered at round 0 goes
    fewer than [fuel] times through its body and leaves at a slot
    holding [k] and [v]. *)
Definition stored (fuel : nat) (slots : list HashSlot) (capacity : Z)
    (k : string) (v : Z) : Prop :=
  exists i0 n j s,
    hash_key hash_str (Some k) 0 capacity = Ret i0 /\
    (n < fuel)%nat /\
    probes slots capacity k i0 0 n (Hit j s) /\
    slot_value s = v.

End Probing.

(** No key is held by two [INSERTED] slots. *)
Definition distinct_keys (slots : list HashSlot) : Prop :=
  forall (i1 i2 : nat) s1 s2,
    slots !! i1 = Some s1 -> slots !! i2 = Some s2 ->
    slot_state s1 = INSERTED -> slot_state s2 = INSERTED ->
    slot_key s1 = slot_key s2 -> i1 = i2.

(** ** Destruction *)

(** The loop of [hashmap_free], lines 61-63, from index [i] with [n]
    iterations left: the key pointers passed to [free], in the order of the
    calls. *)
Fixpoint free_keys (slots : option (list HashSlot)) (i : Z) (n : nat)
  : outcome (list (option string)) :=
  match n with
  | O => Ret []
  | S n' =>
      match slots with
      | None => Undefined
      | Some l =>
          match l !! Z.to_nat i with
          | None => Undefined
          | Some s =>
              let* rest := free_keys slots (i + 1) n' in
              Ret (slot_key s :: rest)
          end
      end
  end.

(** [hashmap_free], lines 60-67.  The array and the table are released
    after the keys. *)
Definition hashmap_free (hm : HashMap) : outcome (list (option string)) :=
  free_keys (hm_slots hm) 0 (Z.to_nat (hm_capacity hm)).

(** ** Shapes of slots and tables *)

(** The three shapes of a slot that the code writes: as [calloc] leaves
    it, as [hashtable_slot_insert] fills it for a non-null value, and as
    [hashmap_remove] leaves it. *)
Definition slot_shape (s : HashSlot) : Prop :=
  s = zero_slot \/ s = tombstone \/ exists k v, s = live k v /\ v <> NULL.

(** A table whose array has [capacity] slots of these shapes. *)
Definition well_formed (hm : HashMap) : Prop :=
  exists l, hm_slots hm = Some l /\
            length l = Z.to_nat (hm_capacity hm) /\
            Forall slot_shape l.

(** A capacity for which [hash_key] does not divide by zero. *)
Definition usable_capacity (m : Z) : Prop :=
  0 < m < size_t_modulus /\ m <> HT_PRIME.

(** An insertion of a non-null value. *)
Definition is_insert (o : operation) : Prop :=
  exists k v, o = Insert k v /\ v <> NULL.

(** The value that a sequence of operations leaves for a key, starting
    from [acc]. *)
Fixpoint last_value (ops : list operation) (k : string) (acc : option Z)
  : option Z :=
  match ops with
  | [] => acc
  | Insert k' v :: ops' =>
      last_value ops' k (if String.eqb k' k then Some v else acc)
  | Remove k' :: ops' =>
      last_value ops' k (if String.eqb k' k then None else acc)
  end.

(** A slot as [calloc] left it or filled with a non-null value. *)
Definition unremoved (s : HashSlot) : Prop :=
  s = zero_slot \/ exists k v, s = live k v /\ v <> NULL.

Section Settled.

Variable hash_str : string -> Z.

(** Every taken slot is the slot at which the probing of its own key
    ends. *)
Definition settled (slots : list HashSlot) (capacity : Z) : Prop :=
  forall (i : nat) s,
    slots !! i = Some s -> occupied s = true ->
    exists k i0 n j,
      slot_key s = Some k /\
      hash_key hash_str (Some k) 0 capacity = Ret i0 /\
      Z.to_nat j = i /\
      probes hash_str slots capacity k i0 0 n (Hit j s).

(** The tables that inserts alone build: the array has [capacity] slots,
    each as [calloc] left it or filled, and every filled slot is
    settled. *)
Definition insert_only (hm : HashMap) : Prop :=
  exists l, hm_slots hm = Some l /\
            length l = Z.to_nat (hm_capacity hm) /\
            Forall unremoved l /\
            settled l (hm_capacity hm).

(** Key [k] is found with value [v] in table [hm]. *)
Definition found (fuel : nat) (hm : HashMap) (k : string) (v : Z) : Prop :=
  exists l, hm_slots hm = Some l /\ stored hash_str fuel l (hm_capacity hm) k v.

End Settled.

(** The number of taken slots. *)
Definition occupied_count (slots : list HashSlot) : nat :=
  length (filter (fun s => occupied s = true) slots).

(** The size field covers the taken slots and stays within half the
    capacity. *)
Definition load_bounded (hm : HashMap) : Prop :=
  exists l, hm_slots hm = Some l /\
            Z.of_nat (occupied_count l) <= hm_size hm
              <= hm_capacity hm / HT_EXPANSION_FACTOR.


(** ** Tables of the scenarios *)

Definition table_of (slots : list HashSlot) (size capacity : Z) : HashMap :=
  mkMap (Some slots) size capacity.

(** [create(8)], then ["a"], ["b"], ["c"], ["d"] inserted with values 1-4. *)
Definition table_abcd : HashMap :=
  table_of [zero_slot; zero_slot; live "c" 3; live "d" 4;
            live "a" 1; live "b" 2; zero_slot; zero_slot] 4 8.

(** ... then ["b"] removed ... *)
Definition table_acd : HashMap :=
  table_of [zero_slot; zero_slot; live "c" 3; live "d" 4;
            live "a" 1; tombstone; zero_slot; zero_slot] 3 8.

(** ... then ["b"] inserted with value 5. *)
Definition table_abcd5 : HashMap :=
  table_of [zero_slot; zero_slot; live "c" 3; live "d" 4;
            live "a" 1; live "b" 5; zero_slot; zero_slot] 4 8.

(** [table_abcd] after an insertion whose [calloc] fails. *)
Definition table_lost : HashMap := mkMap None 4 16.

(** [create(8)], then ["a"] inserted, then ["i"], whose first slot is the
    slot of ["a"]. *)
Definition table_ai : HashMap :=
  table_of [zero_slot; zero_slot; zero_slot; zero_slot;
            live "a" 1; live "i" 2; zero_slot; zero_slot] 2 8.

(** ... then ["a"] removed. *)
Definition table_i : HashMap :=
  table_of [zero_slot; zero_slot; zero_slot; zero_slot;
            tombstone; live "i" 2; zero_slot; zero_slot] 1 8.

(** ... then ["i"] inserted with value 3, ["c"] with 4 and ["d"] with 5. *)
Definition table_ii : HashMap :=
  table_of [zero_slot; zero_slot; live "c" 4; live "d" 5;
            live "i" 3; live "i" 2; zero_slot; zero_slot] 4 8.

(** ... then ["e"] inserted with value 6, which resizes the table. *)
Definition table_ii_resized : HashMap :=
  table_of [live "e" 6; zero_slot; live "c" 4; live "d" 5;
            live "i" 2; zero_slot; zero_slot; zero_slot;
            zero_slot; zero_slot; zero_slot; zero_slot;
            zero_slot; zero_slot; zero_slot; zero_slot] 5 16.

(** [create(8)], then ["a"] inserted with value 1, and again with 2. *)
Definition table_a : HashMap :=
  table_of [zero_slot; zero_slot; zero_slot; zero_slot;
            live "a" 1; zero_slot; zero_slot; zero_slot] 1 8.

Definition table_aa : HashMap :=
  table_of [zero_slot; zero_slot; zero_slot; zero_slot;
            live "a" 2; zero_slot; zero_slot; zero_slot] 2 8.


(** [create(64)], then ["plum"] inserted, then ["orange"], whose first
    slot is the slot of ["plum"]. *)
Definition table_plum_orange : HashMap :=
  table_of (<[43%nat := live "plum" 1]>
              (<[24%nat := live "orange" 2]> (replicate 64 zero_slot))) 2 64.

(** ... then ["plum"] removed. *)
Definition table_orange : HashMap :=
  table_of (<[43%nat := tombstone]>
              (<[24%nat := live "orange" 2]> (replicate 64 zero_slot))) 1 64.

(** [create(64)], then four keys inserted whose slots are 11, 27, 43 and
    59. *)
Definition table_cycle : HashMap :=
  table_of (<[11%nat := live "fp" 1]> (<[27%nat := live "au" 2]>
              (<[43%nat := live "ae" 3]> (<[59%nat := live "ck" 4]>
                 (replicate 64 zero_slot))))) 4 64.

(** [create(32)], then sixteen distinct keys inserted with values 1-16. *)
Definition sixteen_inserts : list operation :=
  [Insert "as" 1; Insert "ac" 2; Insert "abe" 3; Insert "z" 4;
   Insert "j" 5; Insert "ips" 6; Insert "hum" 7; Insert "snm" 8;
   Insert "guf" 9; Insert "mlp" 10; Insert "owe" 11; Insert "rfy" 12;
   Insert "hdr" 13; Insert "lud" 14; Insert "eoa" 15; Insert "yrw" 16].

Definition place (entries : list (nat * string * Z)) (slots : list HashSlot)
  : list HashSlot :=
  foldr (fun e l => <[e.1.1 := live e.1.2 e.2]> l) slots entries.

Definition table_sixteen : HashMap :=
  table_of
    (place [(1%nat, "j", 5); (3%nat, "ips", 6); (4%nat, "mlp", 10);
            (5%nat, "guf", 9); (7%nat, "hum", 7); (10%nat, "owe", 11);
            (11%nat, "snm", 8); (13%nat, "as", 1); (15%nat, "yrw", 16);
            (16%nat, "rfy", 12); (17%nat, "z", 4); (19%nat, "hdr", 13);
            (20%nat, "eoa", 15); (26%nat, "lud", 14); (29%nat, "ac", 2);
            (31%nat, "abe", 3)]
       (replicate 32 zero_slot)) 16 32.

(** The new array of capacity 64 once the rehash of [table_sixteen] has
    walked the old slots 0 to 30. *)
Definition rehashed_fifteen : list HashSlot :=
  place [(11%nat, "snm", 8); (13%nat, "as", 1); (16%nat, "rfy", 12);
         (26%nat, "lud", 14); (29%nat, "ac", 2); (30%nat, "owe", 11);
         (31%nat, "yrw", 16); (33%nat, "hdr", 13); (36%nat, "mlp", 10);
         (40%nat, "guf", 9); (42%nat, "ips", 6); (45%nat, "z", 4);
         (49%nat, "hum", 7); (52%nat, "eoa", 15); (61%nat, "j", 5)]
    (replicate 64 zero_slot).

(** [table_abcd] after a resize to capacity 16 ... *)
Definition table_abcd_resized : HashMap :=
  table_of [zero_slot; zero_slot; live "c" 3; live "d" 4;
            zero_slot; live "b" 2; zero_slot; zero_slot;
            zero_slot; zero_slot; zero_slot; zero_slot;
            live "a" 1; zero_slot; zero_slot; zero_slot] 4 16.

(** ... and after the insert of ["e"] with value 5 that caused it. *)
Definition table_abcde : HashMap :=
  table_of [live "e" 5; zero_slot; live "c" 3; live "d" 4;
            zero_slot; live "b" 2; zero_slot; zero_slot;
            zero_slot; zero_slot; zero_slot; zero_slot;
            live "a" 1; zero_slot; zero_slot; zero_slot] 5 16.

(** The slots of a concrete table have the three shapes. *)
Ltac shaped :=
  eexists; split; [reflexivity|]; split; [reflexivity|];
  repeat (apply List.Forall_cons;
          [ first [ left; reflexivity
                  | right; left; reflexivity
                  | right; right; eexists _, _;
                    split; [reflexivity | discriminate] ] | ]);
  exact (List.Forall_nil _).


(** A slot of a concrete table is taken by the key [k], which is not the
    key looked up. *)
Ltac taken_by k :=
  eexists; split;
  [ vm_compute; reflexivity
  | split; [reflexivity | exists k; split; [reflexivity | discriminate]] ].

(** * Properties *)

Arguments hash_key : simpl never.

(** ** Arithmetic of [size_t] *)

Lemma wrap_small z : 0 <= z < size_t_modulus -> wrap z = z.
Proof. unfold wrap. intros H. apply Z.mod_small. exact H. Qed.


Lemma wrap_mod_divisor x m :
  0 < m -> (m | size_t_modulus) -> wrap x mod m = x mod m.
Proof.
  intros _ Hd. unfold wrap. apply Z.mod_mod_divide. exact Hd.
Qed.

(** ** The probe function *)

Section HashKey.

Variable hash_str : string -> Z.

Lemma hash_key_null rounds m : hash_key hash_str None rounds m = Ret 0.
Proof. reflexivity. Qed.

Lemma hash_key_value s rounds m :
  HT_PRIME < m < size_t_modulus ->
  hash_key hash_str (Some s) rounds m =
    Ret (wrap (wrap (hash_str s) mod m
               + wrap (rounds * (HT_PRIME + wrap (hash_str s) mod (m - HT_PRIME))))
         mod m).
Proof.
  unfold HT_PRIME. intros Hm. unfold hash_key, HT_PRIME.
  destruct (Z.eqb_spec m 0) as [->|_]; [lia|].
  rewrite (wrap_small (m - 37)) by lia.
  destruct (Z.eqb_spec (m - 37) 0) as [E|_]; [lia|].
  rewrite (wrap_small (37 + _)); [reflexivity|].
  pose proof (Z.mod_pos_bound (wrap (hash_str s)) (m - 37)). lia.
Qed.



(** C6 (amended): for a capacity [m > 37] the probe function returns an
    index in [[0, m)]; the second hash [h2 = 37 + k mod (m - 37)] lies in
    [[37, m)], so it is never 0; the index is
    [((h1 + (r * h2) mod 2^64) mod 2^64) mod m], which is
    [(h1 + r * h2) mod m] whenever [h1 + r * h2] fits in [size_t]. *)
Theorem hash_key_index (s : string) (r m : Z) :
  HT_PRIME < m < size_t_modulus ->
  0 <= r < size_t_modulus ->
  let k := wrap (hash_str s) in
  let h1 := k mod m in
  let h2 := HT_PRIME + k mod (m - HT_PRIME) in
  exists i,
    hash_key hash_str (Some s) r m = Ret i /\
    0 <= i < m /\
    HT_PRIME <= h2 < m /\
    i = wrap (h1 + wrap (r * h2)) mod m /\
    (h1 + r * h2 < size_t_modulus -> i = (h1 + r * h2) mod m).
Proof.
  intros Hm Hr k h1 h2.
  assert (Hh2 : HT_PRIME <= h2 < m).
  { subst h2. unfold HT_PRIME in *.
    pose proof (Z.mod_pos_bound k (m - 37)). lia. }
  assert (Hh1 : 0 <= h1 < m).
  { subst h1. unfold HT_PRIME in *. apply Z.mod_pos_bound. lia. }
  eexists. split; [apply hash_key_value; exact Hm|].
  fold k. fold h1. fold h2.
  split; [apply Z.mod_pos_bound; unfold HT_PRIME in *; lia|].
  split; [exact Hh2|]. split; [reflexivity|].
  intros Hfit. unfold HT_PRIME in *.
  assert (0 <= r * h2) by nia.
  rewrite (wrap_small (r * h2)) by lia.
  rewrite (wrap_small (h1 + r * h2)) by lia.
  reflexivity.
Qed.


(** At capacity 64, a 32-bit hash with [k mod 27 = 11] has [h2 = 48]:
    the rounds stay in the four slots congruent to [k] modulo 16. *)
Lemma hash_key_cycle_64 s checks :
  0 <= hash_str s < 2 ^ 32 ->
  hash_str s mod 27 = 11 ->
  exists i, hash_key hash_str (Some s) checks 64 = Ret i /\
            0 <= i < 64 /\ i mod 16 = hash_str s mod 16.
Proof.
  intros Hk H11. unfold hash_key.
  rewrite (wrap_small (hash_str s)) by (unfold size_t_modulus; lia).
  replace (wrap (64 - HT_PRIME)) with 27 by (vm_compute; reflexivity).
  change (64 =? 0) with false. change (27 =? 0) with false.
  cbv iota. rewrite H11.
  replace (wrap (HT_PRIME + 11)) with (3 * 16) by (vm_compute; reflexivity).
  eexists. split; [reflexivity|].
  split; [apply Z.mod_pos_bound; lia|].
  assert (H64 : (64 | size_t_modulus)) by (exists (2 ^ 58); reflexivity).
  assert (H16 : (16 | size_t_modulus)) by (exists (2 ^ 60); reflexivity).
  assert (H4 : (16 | 64)) by (exists 4; reflexivity).
  rewrite wrap_mod_divisor by (lia || exact H64).
  rewrite Z.mod_mod_divide by exact H4.
  rewrite Z.add_mod by lia.
  rewrite Z.mod_mod_divide by exact H4.
  rewrite wrap_mod_divisor by (lia || exact H16).
  rewrite Z.mul_assoc, Z.mod_mul by lia.
  rewrite Z.add_0_r. apply Z.mod_mod. lia.
Qed.

End HashKey.

(** ** The probing loop *)

Lemma occupied_overwrite s v :
  occupied (mkSlot (slot_key s) v (slot_state s)) = occupied s.
Proof. reflexivity. Qed.

Section ProbeFacts.

Variable hash_str : string -> Z.

Lemma probe_complete slots capacity k index checks n r :
  probes hash_str slots capacity k index checks n r ->
  forall fuel, (n < fuel)%nat ->
    probe hash_str fuel slots capacity (Some k) index checks = Ret r.
Proof.
  induction 1 as [index checks s Hs Ho Hk | index checks s Hs Ho
                 | index checks s sk index' n r Hs Ho Hk Hne Hh _ IH];
    intros [|fuel] Hlt; try lia; simpl; rewrite Hs, Ho.
  - rewrite Hk, String.eqb_refl. reflexivity.
  - reflexivity.
  - rewrite Hk. destruct (String.eqb_spec sk k) as [E|_]; [contradiction|].
    rewrite Hh. simpl. apply IH. lia.
Qed.

Lemma probe_sound fuel : forall slots capacity k index checks r,
  probe hash_str fuel slots capacity (Some k) index checks = Ret r ->
  exists n, (n < fuel)%nat /\ probes hash_str slots capacity k index checks n r.
Proof.
  induction fuel as [|fuel IH]; intros slots capacity k index checks r; simpl.
  - discriminate.
  - destruct (slots !! Z.to_nat index) as [s|] eqn:Hs; [|discriminate].
    destruct (occupied s) eqn:Ho.
    + destruct (slot_key s) as [sk|] eqn:Hk; [|discriminate].
      destruct (String.eqb_spec sk k) as [->|Hne].
      * intros [= <-]. exists 0%nat. split; [lia|]. eapply probes_hit; eauto.
      * destruct (hash_key hash_str (Some k) (wrap (checks + 1)) capacity)
          as [index'| |] eqn:Hh; simpl; try discriminate.
        intros Hp. destruct (IH _ _ _ _ _ _ Hp) as (n & Hn & Hpr).
        exists (S n). split; [lia|]. eapply probes_next; eauto.
    + intros [= <-]. exists 0%nat. split; [lia|]. eapply probes_miss; eauto.
Qed.


(** Where the loop leaves: at a slot holding the key, or at a free one. *)
Lemma probes_final slots capacity k index checks n r :
  probes hash_str slots capacity k index checks n r ->
  match r with
  | Hit j s => slots !! Z.to_nat j = Some s /\ occupied s = true /\ slot_key s = Some k
  | Miss j => exists s, slots !! Z.to_nat j = Some s /\ occupied s = false
  end.
Proof. induction 1; eauto. Qed.

(** Writing the key at the slot where the loop left makes the same run
    a hit. *)
Lemma probes_update slots capacity k index checks n r s' :
  probes hash_str slots capacity k index checks n r ->
  occupied s' = true -> slot_key s' = Some k ->
  probes hash_str (<[Z.to_nat (final_index r) := s']> slots) capacity k
    index checks n (Hit (final_index r) s').
Proof.
  intros Hp Ho' Hk'.
  induction Hp as [index checks s Hs Ho Hk | index checks s Hs Ho
                  | index checks s sk index' n r Hs Ho Hk Hne Hh Hp IH]; simpl.
  - apply probes_hit; auto.
    apply list_lookup_insert_eq. eapply lookup_lt_Some; eauto.
  - apply probes_hit; auto.
    apply list_lookup_insert_eq. eapply lookup_lt_Some; eauto.
  - apply probes_next with (s := s) (sk := sk) (index' := index'); auto.
    rewrite list_lookup_insert_ne; [exact Hs|].
    intros E. apply probes_final in Hp.
    destruct r as [j sj|j]; simpl in E; rewrite E in Hp.
    + destruct Hp as (Hj & _ & Hkj). congruence.
    + destruct Hp as (sj & Hj & Hoj). congruence.
Qed.

(** A write elsewhere keeps a hit: the written slot was free, or it is
    rewritten with the key it had, which is another key. *)
Lemma probes_frame slots capacity k index checks n j s (j' : nat) x :
  probes hash_str slots capacity k index checks n (Hit j s) ->
  (forall s1, slots !! j' = Some s1 -> occupied s1 = true ->
     occupied x = true /\ slot_key x = slot_key s1 /\ slot_key s1 <> Some k) ->
  probes hash_str (<[j' := x]> slots) capacity k index checks n (Hit j s).
Proof.
  intros Hp Hx. remember (Hit j s) as r eqn:Hr.
  induction Hp as [index checks s0 Hs Ho Hk | index checks s0 Hs Ho
                  | index checks s0 sk index' n r Hs Ho Hk Hne Hh Hp IH].
  - injection Hr as -> ->.
    apply probes_hit; auto.
    destruct (decide (j' = Z.to_nat j)) as [->|Hneq].
    + destruct (Hx _ Hs Ho) as (_ & _ & Hn). contradiction.
    + rewrite list_lookup_insert_ne; auto.
  - discriminate.
  - destruct (decide (j' = Z.to_nat index)) as [->|Hneq].
    + destruct (Hx _ Hs Ho) as (Hox & Hkx & _).
      apply probes_next with (s := x) (sk := sk) (index' := index'); auto.
      * apply list_lookup_insert_eq. eapply lookup_lt_Some; eauto.
      * congruence.
    + apply probes_next with (s := s0) (sk := sk) (index' := index'); auto.
      rewrite list_lookup_insert_ne; auto.
Qed.

End ProbeFacts.

(** ** Lookup *)

Section Lookup.

Variable hash_str : string -> Z.

(** C10: with a null key [hashmap_get] returns [NULL] at once: for any
    table, also one whose array is null or too short to be probed, and
    without a single evaluation of the loop condition. *)
Theorem get_null_key (fuel : nat) (hm : HashMap) :
  hashmap_get hash_str fuel hm None = Ret NULL.
Proof. reflexivity. Qed.





(** A key whose rounds stay within slots taken by other keys is looked
    up forever. *)
Lemma probe_cycles slots capacity k (P : Z -> Prop) :
  (forall checks, exists i, hash_key hash_str (Some k) checks capacity = Ret i /\ P i) ->
  (forall i, P i -> exists s, slots !! Z.to_nat i = Some s /\ other_key k s) ->
  forall fuel i checks, P i ->
    probe hash_str fuel slots capacity (Some k) i checks = OutOfFuel.
Proof.
  intros Hcyc Htaken.
  induction fuel as [|fuel IH]; intros i checks Hi; [reflexivity|].
  destruct (Htaken i Hi) as (s & Hs & Ho & sk & Hk & Hne).
  cbn [probe]. rewrite Hs, Ho, Hk.
  destruct (String.eqb_spec sk k) as [E|_]; [contradiction|].
  destruct (Hcyc (wrap (checks + 1))) as (i' & -> & Hi').
  cbn [bind]. apply IH. exact Hi'.
Qed.

Lemma get_cycles hm slots k (P : Z -> Prop) :
  hm_slots hm = Some slots ->
  (forall checks, exists i,
     hash_key hash_str (Some k) checks (hm_capacity hm) = Ret i /\ P i) ->
  (forall i, P i -> exists s, slots !! Z.to_nat i = Some s /\ other_key k s) ->
  forall fuel, hashmap_get hash_str fuel hm (Some k) = OutOfFuel.
Proof.
  intros Hsl Hcyc Htaken fuel. unfold hashmap_get.
  destruct (Hcyc 0) as (i0 & -> & Hi0). rewrite Hsl. cbn [bind].
  rewrite (probe_cycles slots (hm_capacity hm) k P Hcyc Htaken fuel i0 0 Hi0).
  reflexivity.
Qed.

End Lookup.

(** ** Insertion *)

Section Insertion.

Variable hash_str : string -> Z.

(** C8: [hashmap_insert] with a null value returns [NULL] and leaves the
    table as it was: same array, same size, same capacity.  No loop is
    entered and nothing is allocated. *)
Theorem insert_null_value (fuel : nat) (calloc_ok strdup_ok : bool)
    (hm : HashMap) (key : option string) :
  hashmap_insert hash_str fuel calloc_ok strdup_ok hm key NULL = Ret (hm, None).
Proof. unfold hashmap_insert. destruct (hm_slots hm); reflexivity. Qed.

(** A call on an array returns an array of the same length. *)
Lemma slot_insert_array fuel sd slots capacity key v cpy slots' res :
  hashtable_slot_insert hash_str fuel sd (Some slots) capacity key v cpy
    = Ret (slots', res) ->
  exists l', slots' = Some l' /\ length l' = length slots.
Proof.
  unfold hashtable_slot_insert.
  destruct (hash_key hash_str key 0 capacity) as [i0| |]; try discriminate.
  cbn [bind].
  destruct (probe hash_str fuel slots capacity key i0 0) as [r| |];
    try discriminate.
  cbn [bind]. destruct r as [j s|j].
  - intros [= <- _]. eexists. split; [reflexivity | apply length_insert].
  - destruct (cpy =? 0).
    + destruct key; [|discriminate].
      destruct sd; intros [= <- _]; eexists; (split; [reflexivity|]);
        [apply length_insert | reflexivity].
    + intros [= <- _]. eexists. split; [reflexivity | apply length_insert].
Qed.

(** The three ways out of [hashtable_slot_insert] with a non-null key. *)
Lemma slot_insert_inv fuel sd slots capacity k v cpy slots' res :
  hashtable_slot_insert hash_str fuel sd (Some slots) capacity (Some k) v cpy
    = Ret (slots', res) ->
  exists i0 n r,
    hash_key hash_str (Some k) 0 capacity = Ret i0 /\
    (n < fuel)%nat /\
    probes hash_str slots capacity k i0 0 n r /\
    ((exists s, r = Hit (final_index r) s /\ res = Some k /\
        slots' = Some (<[Z.to_nat (final_index r) :=
                          mkSlot (slot_key s) v (slot_state s)]> slots))
     \/ (r = Miss (final_index r) /\ res = Some k /\
        slots' = Some (<[Z.to_nat (final_index r) := live k v]> slots))
     \/ (r = Miss (final_index r) /\ res = None /\ slots' = Some slots /\
        cpy = 0 /\ sd = false)).
Proof.
  unfold hashtable_slot_insert. intros Hret.
  destruct (hash_key hash_str (Some k) 0 capacity) as [i0| |] eqn:Hh;
    simpl in Hret; try discriminate.
  destruct (probe hash_str fuel slots capacity (Some k) i0 0) as [r| |] eqn:Hp;
    simpl in Hret; try discriminate.
  destruct (probe_sound _ _ _ _ _ _ _ _ Hp) as (n & Hn & Hpr).
  exists i0, n, r. split; [reflexivity|]. repeat (split; [assumption|]).
  destruct r as [j s|j]; simpl.
  - injection Hret as <- <-. left. exists s.
    apply probes_final in Hpr. destruct Hpr as (_ & _ & Hk). rewrite Hk. auto.
  - destruct (cpy =? 0) eqn:Hc.
    + destruct sd; injection Hret as <- <-.
      * right; left. auto.
      * right; right. apply Z.eqb_eq in Hc. auto.
    + injection Hret as <- <-. right; left. auto.
Qed.

(** After a successful call the key is found with the value. *)
Lemma slot_insert_stored fuel sd slots capacity k v cpy slots' p :
  hashtable_slot_insert hash_str fuel sd (Some slots) capacity (Some k) v cpy
    = Ret (Some slots', Some p) ->
  stored hash_str fuel slots' capacity k v.
Proof.
  intros H. apply slot_insert_inv in H.
  destruct H as (i0 & n & r & Hh & Hn & Hpr & [(s & Hr & _ & Hs)|[(Hr & _ & Hs)|(_ & ? & _)]]);
    [| |discriminate]; injection Hs as ->.
  - exists i0, n, (final_index r), (mkSlot (slot_key s) v (slot_state s)).
    repeat (split; [assumption|]). split; [|reflexivity].
    pose proof (probes_final _ _ _ _ _ _ _ _ Hpr) as Hf. rewrite Hr in Hf.
    destruct Hf as (_ & Ho & Hk).
    apply probes_update; [exact Hpr | rewrite occupied_overwrite; exact Ho | exact Hk].
  - exists i0, n, (final_index r), (live k v).
    repeat (split; [assumption|]). split; [|reflexivity].
    apply probes_update; [exact Hpr | reflexivity | reflexivity].
Qed.

(** A call for one key keeps what is found under another key. *)
Lemma slot_insert_frame fuel sd slots capacity k v cpy slots' res k' v' :
  hashtable_slot_insert hash_str fuel sd (Some slots) capacity (Some k) v cpy
    = Ret (Some slots', res) ->
  k' <> k ->
  stored hash_str fuel slots capacity k' v' ->
  stored hash_str fuel slots' capacity k' v'.
Proof.
  intros H Hne (i0' & n' & j' & s' & Hh' & Hn' & Hpr' & Hv').
  apply slot_insert_inv in H.
  destruct H as (i0 & n & r & Hh & Hn & Hpr & Hcase).
  pose proof (probes_final _ _ _ _ _ _ _ _ Hpr) as Hf.
  exists i0', n', j', s'. repeat (split; [assumption|]). split; [|exact Hv'].
  destruct Hcase as [(s & Hr & _ & Hs)|[(Hr & _ & Hs)|(_ & _ & Hs & _)]];
    injection Hs as ->; [| |exact Hpr'].
  - rewrite Hr in Hf. destruct Hf as (Hl & Ho & Hk).
    apply probes_frame; [exact Hpr'|].
    intros s1 Hl1 _. rewrite Hl in Hl1. injection Hl1 as <-.
    rewrite occupied_overwrite. simpl. repeat split; auto. congruence.
  - rewrite Hr in Hf. destruct Hf as (s0 & Hl & Ho).
    apply probes_frame; [exact Hpr'|].
    intros s1 Hl1 Ho1. congruence.
Qed.

(** The capacity that [hashmap_insert] probes with is the capacity of
    the table it probes. *)
Lemma expand_capacity fuel calloc_ok hm hm' c :
  hashtable_expand hash_str fuel calloc_ok hm = Ret (hm', c) ->
  c = hm_capacity hm' /\ hm_size hm' = hm_size hm /\
  hm_capacity hm' = wrap (hm_capacity hm * HT_EXPANSION_FACTOR).
Proof.
  unfold hashtable_expand.
  destruct (rehash _ _ _ _ _ _ _) as [ns| |]; simpl; try discriminate.
  intros [= <- <-]. auto.
Qed.

(** A lookup that directly follows a successful [hashmap_insert] of a
    key returns the inserted value, whatever the table was. *)
Theorem get_after_insert (fuel : nat) (calloc_ok strdup_ok : bool)
    (hm hm' : HashMap) (k p : string) (v : Z) :
  hashmap_insert hash_str fuel calloc_ok strdup_ok hm (Some k) v = Ret (hm', Some p) ->
  hashmap_get hash_str fuel hm' (Some k) = Ret v.
Proof.
  unfold hashmap_insert.
  destruct (hm_slots hm) as [l0|]; [|discriminate].
  destruct (v =? NULL); [discriminate|].
  set (e := if hm_size hm >=? hm_capacity hm / HT_EXPANSION_FACTOR
            then hashtable_expand hash_str fuel calloc_ok hm
            else Ret (hm, hm_capacity hm)).
  assert (He : forall hm1 c, e = Ret (hm1, c) -> c = hm_capacity hm1).
  { subst e. intros hm1 c. destruct (_ >=? _).
    - intros H. apply expand_capacity in H. tauto.
    - intros [= <- <-]. reflexivity. }
  destruct e as [[hm1 c]| |]; simpl; try discriminate.
  rewrite (He hm1 c eq_refl). clear He.
  destruct (hm_slots hm1) as [l1|] eqn:Hl1; [|simpl; discriminate].
  destruct (hashtable_slot_insert _ _ _ _ _ _ _ _) as [[ns res]| |] eqn:Hins;
    simpl; try discriminate.
  destruct res as [p'|]; [|discriminate].
  intros [= <- <-].
  destruct ns as [l'|].
  2:{ apply slot_insert_inv in Hins.
      destruct Hins as (? & ? & ? & _ & _ & _ & [(? & _ & _ & ?)|[(_ & _ & ?)|(_ & ? & _)]]);
        discriminate. }
  apply slot_insert_stored in Hins.
  destruct Hins as (i0 & n & j & s & Hh & Hn & Hpr & Hv).
  unfold hashmap_get. simpl. rewrite Hh. simpl.
  rewrite (probe_complete _ _ _ _ _ _ _ _ Hpr fuel Hn). simpl. congruence.
Qed.

(** [hashmap_insert] increments the size after every successful
    [hashtable_slot_insert], also when that call has only overwritten
    the value of a key that was there. *)
Lemma insert_present_key (fuel : nat) (calloc_ok strdup_ok : bool)
    (hm : HashMap) (slots : list HashSlot) (k : string) (v v0 : Z) :
  hm_slots hm = Some slots ->
  v <> NULL ->
  hm_size hm < hm_capacity hm / HT_EXPANSION_FACTOR ->
  stored hash_str fuel slots (hm_capacity hm) k v0 ->
  exists slots',
    hashmap_insert hash_str fuel calloc_ok strdup_ok hm (Some k) v
      = Ret (mkMap (Some slots') (wrap (hm_size hm + 1)) (hm_capacity hm), Some k) /\
    length slots' = length slots /\
    stored hash_str fuel slots' (hm_capacity hm) k v.
Proof.
  intros Hsl Hv Hsize (i0 & n & j & s & Hh & Hn & Hpr & _).
  pose proof (probes_final _ _ _ _ _ _ _ _ Hpr) as (Hl & Ho & Hk).
  exists (<[Z.to_nat j := mkSlot (slot_key s) v (slot_state s)]> slots).
  split; [|split].
  - unfold hashmap_insert. rewrite Hsl.
    destruct (Z.eqb_spec v NULL) as [E|_]; [contradiction|].
    destruct (Z.geb_spec (hm_size hm) (hm_capacity hm / HT_EXPANSION_FACTOR));
      [lia|].
    cbn [bind fst snd]. unfold hashtable_slot_insert. rewrite Hsl, Hh.
    cbn [bind]. rewrite (probe_complete _ _ _ _ _ _ _ _ Hpr fuel Hn).
    cbn [bind fst snd]. rewrite Hk. reflexivity.
  - apply length_insert.
  - exists i0, n, j, (mkSlot (slot_key s) v (slot_state s)).
    repeat (split; [assumption|]). split; [|reflexivity].
    apply (probes_update hash_str _ _ _ _ _ _ _ _ Hpr);
      [rewrite occupied_overwrite; exact Ho | exact Hk].
Qed.

(** Below the threshold [hashmap_insert] does not resize. *)
Lemma insert_below_threshold fuel calloc_ok hm slots k v hm' res :
  hm_slots hm = Some slots ->
  v <> NULL ->
  hm_size hm < hm_capacity hm / HT_EXPANSION_FACTOR ->
  hashmap_insert hash_str fuel calloc_ok true hm (Some k) v = Ret (hm', res) ->
  hm_capacity hm' = hm_capacity hm /\
  hm_size hm' = wrap (hm_size hm + 1) /\
  res = Some k /\
  exists slots', hm_slots hm' = Some slots' /\ length slots' = length slots.
Proof.
  intros Hsl Hv Hsize. unfold hashmap_insert. rewrite Hsl.
  destruct (Z.eqb_spec v NULL) as [E|_]; [contradiction|].
  destruct (Z.geb_spec (hm_size hm) (hm_capacity hm / HT_EXPANSION_FACTOR));
    [lia|].
  cbn [bind fst snd]. rewrite Hsl.
  destruct (hashtable_slot_insert _ _ _ _ _ _ _ _) as [[ns rs]| |] eqn:Hins;
    try discriminate.
  cbn [bind fst snd].
  destruct (slot_insert_array _ _ _ _ _ _ _ _ _ Hins) as (l' & -> & Hlen).
  apply slot_insert_inv in Hins.
  destruct Hins as (i0 & n & r & _ & _ & _ &
    [(s & _ & -> & _)|[(_ & -> & _)|(_ & _ & _ & _ & ?)]]); [| |discriminate];
    intros [= <- <-]; cbn; repeat split; eauto.
Qed.

(** A run of inserts that keeps the size below the threshold keeps the
    capacity, whatever the hash function. *)
Lemma inserts_below_threshold fuel : forall ops hm hm' slots,
  Forall (fun o => exists k v, o = Insert k v /\ v <> NULL) ops ->
  hm_slots hm = Some slots ->
  0 <= hm_size hm ->
  hm_size hm + Z.of_nat (length ops) <= hm_capacity hm / HT_EXPANSION_FACTOR ->
  hm_capacity hm < size_t_modulus ->
  run hash_str fuel ops hm = Ret hm' ->
  hm_capacity hm' = hm_capacity hm /\
  hm_size hm' = hm_size hm + Z.of_nat (length ops).
Proof.
  induction ops as [|o ops IH]; intros hm hm' slots Hops Hsl H0 Hsize Hcap Hrun.
  - injection Hrun as <-. cbn. lia.
  - inversion Hops as [|? ? (k & v & -> & Hv) Hops']; subst.
    cbn [run perform] in Hrun. cbn [length] in Hsize.
    destruct (hashmap_insert hash_str fuel true true hm (Some k) v)
      as [[hm1 res]| |] eqn:Hins; try discriminate.
    cbn [bind fst] in Hrun.
    assert (Hhalf : hm_capacity hm / HT_EXPANSION_FACTOR <= hm_capacity hm).
    { unfold HT_EXPANSION_FACTOR in *.
      assert (0 <= hm_capacity hm / 2) by lia.
      pose proof (Z.mul_div_le (hm_capacity hm) 2 ltac:(lia)). lia. }
    destruct (insert_below_threshold _ _ _ _ _ _ _ _ Hsl Hv ltac:(lia) Hins)
      as (Hc1 & Hs1 & _ & slots1 & Hsl1 & _).
    rewrite wrap_small in Hs1 by lia.
    destruct (IH hm1 hm' slots1 Hops' Hsl1 ltac:(lia)
                ltac:(rewrite Hc1, Hs1; lia) ltac:(rewrite Hc1; exact Hcap) Hrun)
      as (Hc' & Hs').
    split; [congruence|]. rewrite Hs', Hs1. cbn [length]. lia.
Qed.

End Insertion.

(** ** Removal *)

Section Removal.

Variable hash_str : string -> Z.

(** [hashmap_remove] nulls the key of the slot it marks [DELETED], and
    the loop condition takes a null key for the end of the probe
    sequence: a key whose first slot is the slot of the removed key is
    reported absent, wherever it sits. *)
Lemma get_after_remove_of_first_slot (fuel fuel' : nat) (hm : HashMap)
    (slots : list HashSlot) (a k : string) (i : Z) (s : HashSlot) :
  hm_slots hm = Some slots ->
  hash_key hash_str (Some a) 0 (hm_capacity hm) = Ret i ->
  hash_key hash_str (Some k) 0 (hm_capacity hm) = Ret i ->
  slots !! Z.to_nat i = Some s ->
  occupied s = true ->
  slot_key s = Some a ->
  exists hm',
    hashmap_remove hash_str (S fuel) hm (Some a) = Ret (hm', 1) /\
    hm_size hm' = wrap (hm_size hm - 1) /\
    hashmap_get hash_str (S fuel') hm' (Some k) = Ret NULL.
Proof.
  intros Hsl Ha Hk Hs Ho Hkey.
  eexists. split; [|split].
  - unfold hashmap_remove. rewrite Ha, Hsl. cbn [bind probe].
    rewrite Hs, Ho, Hkey, String.eqb_refl. reflexivity.
  - reflexivity.
  - unfold hashmap_get. cbn [hm_capacity hm_slots]. rewrite Hk. cbn [bind probe].
    rewrite list_lookup_insert_eq by (eapply lookup_lt_Some; eauto).
    reflexivity.
Qed.

End Removal.

(** ** Resize *)

Section Resize.

Variable hash_str : string -> Z.

Lemma stored_frame fuel slots capacity k v (j' : nat) x :
  stored hash_str fuel slots capacity k v ->
  (forall s1, slots !! j' = Some s1 -> occupied s1 = true ->
     occupied x = true /\ slot_key x = slot_key s1 /\ slot_key s1 <> Some k) ->
  stored hash_str fuel (<[j' := x]> slots) capacity k v.
Proof.
  intros (i0 & n & j & s & Hh & Hn & Hpr & Hv) Hx.
  exists i0, n, j, s. repeat (split; [assumption|]). split; [|exact Hv].
  apply probes_frame; assumption.
Qed.

(** Reinsertion of a slot whose key is null: slot 0 is written, and it
    was free. *)
Lemma slot_insert_null_key fuel sd slots capacity v slots' res :
  hashtable_slot_insert hash_str fuel sd (Some slots) capacity None v 1
    = Ret (slots', res) ->
  exists s, slots !! 0%nat = Some s /\ occupied s = false /\
            slots' = Some (<[0%nat := mkSlot None v INSERTED]> slots).
Proof.
  unfold hashtable_slot_insert. rewrite hash_key_null. cbn [bind].
  destruct fuel as [|fuel]; [discriminate|]. cbn [probe].
  change (Z.to_nat 0) with 0%nat.
  destruct (slots !! 0%nat) as [s|]; [|discriminate].
  destruct (occupied s) eqn:Ho.
  - destruct (slot_key s); discriminate.
  - cbn. intros [= <- <-]. eauto.
Qed.

(** A reinsertion writes no [DELETED] slot. *)
Lemma slot_insert_no_tombstone fuel sd slots capacity key v cpy slots' res :
  hashtable_slot_insert hash_str fuel sd (Some slots) capacity key v cpy
    = Ret (Some slots', res) ->
  Forall (fun s => slot_state s <> DELETED) slots ->
  Forall (fun s => slot_state s <> DELETED) slots'.
Proof.
  intros H Hall. unfold hashtable_slot_insert in H.
  destruct (hash_key hash_str key 0 capacity) as [i0| |]; try discriminate.
  cbn [bind] in H.
  destruct (probe hash_str fuel slots capacity key i0 0) as [r| |] eqn:Hp;
    try discriminate.
  cbn [bind] in H. destruct r as [j s|j].
  - injection H as <- _. apply Forall_insert; [exact Hall|]. cbn.
    destruct key as [k|].
    + apply probe_sound in Hp. destruct Hp as (n & _ & Hp).
      apply probes_final in Hp. destruct Hp as (Hl & _).
      eapply (Forall_lookup_1 _ _ _ _ Hall Hl).
    + destruct fuel as [|fuel]; [discriminate|]. cbn [probe] in Hp.
      destruct (slots !! Z.to_nat i0) as [s0|]; [|discriminate].
      destruct (occupied s0); [|discriminate].
      destruct (slot_key s0); discriminate.
  - assert (Hc : Forall (fun s => slot_state s <> DELETED)
                   (<[Z.to_nat j := mkSlot key v INSERTED]> slots)).
    { apply Forall_insert; [exact Hall | discriminate]. }
    destruct (cpy =? 0).
    + destruct key; [|discriminate]. destruct sd; injection H as <- _; assumption.
    + injection H as <- _. exact Hc.
Qed.

(** The invariant of the rehash loop: the entries of the old slots met
    so far are found in the new array. *)
Lemma rehash_stored fuel old capacity :
  distinct_keys old ->
  forall n (i : nat) nw res,
    rehash hash_str fuel (Some old) (Some nw) capacity (Z.of_nat i) n = Ret res ->
    Forall (fun s => slot_state s <> DELETED) nw ->
    (forall (i' : nat) k v, (i' < i)%nat -> old !! i' = Some (live k v) ->
       stored hash_str fuel nw capacity k v) ->
    exists nw',
      res = Some nw' /\ length nw' = length nw /\
      Forall (fun s => slot_state s <> DELETED) nw' /\
      forall (i' : nat) k v, (i' < i + n)%nat -> old !! i' = Some (live k v) ->
        stored hash_str fuel nw' capacity k v.
Proof.
  intros Hd. induction n as [|n IH]; intros i nw res Hr Hall Hinv.
  - injection Hr as <-. exists nw. repeat split; auto.
    intros i' k v Hi'. apply Hinv. lia.
  - cbn [rehash] in Hr. rewrite Nat2Z.id in Hr.
    destruct (old !! i) as [slot|] eqn:Hslot; [|discriminate].
    replace (Z.of_nat i + 1) with (Z.of_nat (S i)) in Hr by lia.
    assert (Hgo : forall nw1,
      rehash hash_str fuel (Some old) (Some nw1) capacity (Z.of_nat (S i)) n = Ret res ->
      length nw1 = length nw ->
      Forall (fun s => slot_state s <> DELETED) nw1 ->
      (forall (i' : nat) k v, (i' < S i)%nat -> old !! i' = Some (live k v) ->
         stored hash_str fuel nw1 capacity k v) ->
      exists nw', res = Some nw' /\ length nw' = length nw /\
        Forall (fun s => slot_state s <> DELETED) nw' /\
        forall (i' : nat) k v, (i' < i + S n)%nat -> old !! i' = Some (live k v) ->
          stored hash_str fuel nw' capacity k v).
    { intros nw1 Hr1 Hlen1 Hall1 Hinv1.
      destruct (IH (S i) nw1 res Hr1 Hall1 Hinv1) as (nw' & -> & Hlen & Hall' & Hst).
      exists nw'. repeat split; [congruence | exact Hall' |].
      intros i' k v Hi'. apply Hst. lia. }
    assert (Hskip : slot_state slot <> INSERTED ->
      forall (i' : nat) k v, (i' < S i)%nat -> old !! i' = Some (live k v) ->
        stored hash_str fuel nw capacity k v).
    { intros Hne i' k v Hi' Hl.
      destruct (decide (i' = i)) as [->|Hneq]; [|apply (Hinv i'); [lia | exact Hl]].
      rewrite Hslot in Hl. injection Hl as ->. contradiction Hne. reflexivity. }
    destruct (slot_state slot) eqn:Hstate.
    + cbn [bind] in Hr. apply (Hgo nw Hr eq_refl Hall). apply Hskip. discriminate.
    + destruct (hashtable_slot_insert hash_str fuel true (Some nw) capacity
                  (slot_key slot) (slot_value slot) 1) as [[ns rs]| |] eqn:Hins;
        try discriminate.
      cbn [bind fst] in Hr.
      destruct (slot_insert_array _ _ _ _ _ _ _ _ _ _ Hins) as (nw1 & -> & Hlen1).
      pose proof (slot_insert_no_tombstone _ _ _ _ _ _ _ _ _ Hins Hall) as Hall1.
      apply (Hgo nw1 Hr Hlen1 Hall1).
      intros i' k v Hi' Hl.
      destruct (slot_key slot) as [k0|] eqn:Hk0.
      * destruct (decide (i' = i)) as [->|Hneq].
        -- rewrite Hslot in Hl. injection Hl as ->.
           cbn [slot_key slot_value live] in Hk0, Hins.
           injection Hk0 as <-.
           destruct rs as [p|].
           ++ eapply slot_insert_stored; eauto.
           ++ apply slot_insert_inv in Hins.
              destruct Hins as (? & ? & ? & _ & _ & _ &
                [(? & _ & ? & _)|[(_ & ? & _)|(_ & _ & _ & ? & _)]]); discriminate.
        -- eapply slot_insert_frame; [exact Hins | | apply (Hinv i'); [lia | exact Hl]].
           intros ->. apply Hneq.
           apply (Hd i' i (live k0 v) slot Hl Hslot); [reflexivity | exact Hstate |].
           cbn. congruence.
      * destruct (decide (i' = i)) as [->|Hneq].
        -- rewrite Hslot in Hl. injection Hl as ->. discriminate.
        -- apply slot_insert_null_key in Hins.
           destruct Hins as (s0 & Hs0 & Ho0 & Hnw1). injection Hnw1 as ->.
           apply stored_frame; [apply (Hinv i'); [lia | exact Hl]|].
           intros s1 Hs1 Ho1. congruence.
    + cbn [bind] in Hr. apply (Hgo nw Hr eq_refl Hall). apply Hskip. discriminate.
Qed.

(** What a resize preserves when it returns: if the new array is
    allocated, no key is held by two [INSERTED] slots and the rehash
    completes, the capacity is doubled, the size kept, the new array has
    the new capacity and no [DELETED] slot, and every entry of an
    [INSERTED] slot of the old array is returned by [hashmap_get]. *)
Theorem expand_preserves_get (fuel : nat) (hm hm' : HashMap)
    (old : list HashSlot) (c : Z) :
  hm_slots hm = Some old ->
  length old = Z.to_nat (hm_capacity hm) ->
  distinct_keys old ->
  hashtable_expand hash_str fuel true hm = Ret (hm', c) ->
  c = wrap (hm_capacity hm * HT_EXPANSION_FACTOR) /\
  hm_capacity hm' = c /\
  hm_size hm' = hm_size hm /\
  (exists nw, hm_slots hm' = Some nw /\ length nw = Z.to_nat c /\
              Forall (fun s => slot_state s <> DELETED) nw) /\
  forall (i : nat) k v, old !! i = Some (live k v) ->
    hashmap_get hash_str fuel hm' (Some k) = Ret v.
Proof.
  intros Hsl Hlen Hd He. unfold hashtable_expand in He. rewrite Hsl in He.
  set (c' := wrap (hm_capacity hm * HT_EXPANSION_FACTOR)) in *.
  destruct (rehash hash_str fuel (Some old) _ c' 0 _) as [res| |] eqn:Hr;
    try discriminate.
  cbn [bind] in He. injection He as <- <-.
  change 0 with (Z.of_nat 0) in Hr.
  apply (rehash_stored fuel old c' Hd) in Hr.
  - destruct Hr as (nw' & -> & Hlen' & Hall' & Hst).
    repeat split; cbn.
    + exists nw'. rewrite Hlen', length_replicate. auto.
    + intros i k v Hl.
      destruct (Hst i k v) as (i0 & n & j & s & Hh & Hn & Hpr & Hv).
      * apply lookup_lt_Some in Hl. lia.
      * exact Hl.
      * unfold hashmap_get. cbn [hm_capacity hm_slots]. rewrite Hh. cbn [bind].
        rewrite (probe_complete _ _ _ _ _ _ _ _ Hpr fuel Hn). cbn. congruence.
  - apply Forall_replicate. discriminate.
  - intros i' k v Hi'. lia.
Qed.

(** The loop over [n1 + n2] slots is the loop over [n1] slots followed by
    the loop over the next [n2]. *)
Lemma rehash_app fuel old capacity n2 : forall n1 ns i,
  rehash hash_str fuel old ns capacity i (n1 + n2) =
    let* ns' := rehash hash_str fuel old ns capacity i n1 in
    rehash hash_str fuel old ns' capacity (i + Z.of_nat n1) n2.
Proof.
  induction n1 as [|n1 IH]; intros ns i.
  - cbn [rehash bind Nat.add]. rewrite Z.add_0_r. reflexivity.
  - cbn [rehash Nat.add].
    destruct old as [l|]; [|reflexivity].
    destruct (l !! Z.to_nat i) as [slot|]; [|reflexivity].
    replace (i + Z.of_nat (S n1)) with (i + 1 + Z.of_nat n1) by lia.
    destruct (slot_state slot); cbn [bind]; try apply IH.
    destruct (hashtable_slot_insert hash_str fuel true ns capacity _ _ 1)
      as [r| |]; cbn [bind]; [apply IH | reflexivity | reflexivity].
Qed.

(** When [calloc] fails, [hashtable_expand] still walks the old array,
    doubles the capacity and installs the null array. *)
Lemma rehash_null fuel old capacity : forall n (i : nat),
  (i + n <= length old)%nat ->
  rehash hash_str fuel (Some old) None capacity (Z.of_nat i) n = Ret None.
Proof.
  induction n as [|n IH]; intros i Hlen; [reflexivity|].
  cbn [rehash]. rewrite Nat2Z.id.
  destruct (lookup_lt_is_Some_2 old i ltac:(lia)) as (slot & ->).
  replace (Z.of_nat i + 1) with (Z.of_nat (S i)) by lia.
  destruct (slot_state slot); cbn; apply IH; lia.
Qed.

Lemma expand_allocation_failure (fuel : nat) (hm : HashMap) (old : list HashSlot) :
  hm_slots hm = Some old ->
  length old = Z.to_nat (hm_capacity hm) ->
  hashtable_expand hash_str fuel false hm =
    Ret (mkMap None (hm_size hm) (wrap (hm_capacity hm * HT_EXPANSION_FACTOR)),
         wrap (hm_capacity hm * HT_EXPANSION_FACTOR)).
Proof.
  intros Hsl Hlen. unfold hashtable_expand. rewrite Hsl.
  change 0 with (Z.of_nat 0). rewrite rehash_null by lia. reflexivity.
Qed.

End Resize.

(** ** Fuel *)

Section Fuel.

Variable hash_str : string -> Z.

(** A result obtained with some fuel is obtained with any larger
    fuel. *)
Lemma probe_mono fuel fuel' slots capacity key index checks r :
  (fuel <= fuel')%nat ->
  probe hash_str fuel slots capacity key index checks = Ret r ->
  probe hash_str fuel' slots capacity key index checks = Ret r.
Proof.
  revert fuel' index checks.
  induction fuel as [|fuel IH]; intros fuel' index checks Hle; simpl;
    [discriminate|].
  destruct fuel' as [|fuel']; [lia|]. simpl.
  destruct (slots !! Z.to_nat index) as [s|]; [|discriminate].
  destruct (occupied s); [|auto].
  destruct (slot_key s) as [sk|]; [|discriminate].
  destruct key as [k|]; [|discriminate].
  destruct (String.eqb sk k); [auto|].
  destruct (hash_key hash_str (Some k) (wrap (checks + 1)) capacity);
    simpl; try discriminate.
  apply IH. lia.
Qed.

Lemma slot_insert_mono fuel fuel' sd slots capacity key v cpy r :
  (fuel <= fuel')%nat ->
  hashtable_slot_insert hash_str fuel sd slots capacity key v cpy = Ret r ->
  hashtable_slot_insert hash_str fuel' sd slots capacity key v cpy = Ret r.
Proof.
  intros Hle. unfold hashtable_slot_insert.
  destruct slots as [l|]; [|auto].
  destruct (hash_key hash_str key 0 capacity) as [i0| |]; simpl; try discriminate.
  destruct (probe hash_str fuel l capacity key i0 0) as [pr| |] eqn:Hp;
    simpl; try discriminate.
  rewrite (probe_mono _ _ _ _ _ _ _ _ Hle Hp). auto.
Qed.

Lemma rehash_mono fuel fuel' old capacity n : forall ns i r,
  (fuel <= fuel')%nat ->
  rehash hash_str fuel old ns capacity i n = Ret r ->
  rehash hash_str fuel' old ns capacity i n = Ret r.
Proof.
  induction n as [|n IH]; intros ns i r Hle; simpl; [auto|].
  destruct old as [l|]; [|discriminate].
  destruct (l !! Z.to_nat i) as [slot|]; [|discriminate].
  destruct (slot_state slot); simpl; try (apply IH; exact Hle).
  destruct (hashtable_slot_insert hash_str fuel true ns capacity _ _ 1)
    as [r1| |] eqn:Hi; simpl; try discriminate.
  rewrite (slot_insert_mono _ _ _ _ _ _ _ _ _ Hle Hi). simpl.
  apply IH. exact Hle.
Qed.

Lemma expand_mono fuel fuel' calloc_ok hm r :
  (fuel <= fuel')%nat ->
  hashtable_expand hash_str fuel calloc_ok hm = Ret r ->
  hashtable_expand hash_str fuel' calloc_ok hm = Ret r.
Proof.
  intros Hle. unfold hashtable_expand.
  destruct (rehash hash_str fuel _ _ _ _ _) as [ns| |] eqn:Hr;
    simpl; try discriminate.
  rewrite (rehash_mono _ _ _ _ _ _ _ _ Hle Hr). auto.
Qed.

Lemma insert_mono fuel fuel' calloc_ok strdup_ok hm key v r :
  (fuel <= fuel')%nat ->
  hashmap_insert hash_str fuel calloc_ok strdup_ok hm key v = Ret r ->
  hashmap_insert hash_str fuel' calloc_ok strdup_ok hm key v = Ret r.
Proof.
  intros Hle. unfold hashmap_insert.
  destruct (hm_slots hm); [|auto].
  destruct (v =? NULL); [auto|].
  destruct (hm_size hm >=? hm_capacity hm / HT_EXPANSION_FACTOR).
  - destruct (hashtable_expand hash_str fuel calloc_ok hm) as [e| |] eqn:He;
      simpl; try discriminate.
    rewrite (expand_mono _ _ _ _ _ Hle He). simpl.
    destruct (hashtable_slot_insert hash_str fuel _ _ _ _ _ _) as [r1| |] eqn:Hi;
      simpl; try discriminate.
    rewrite (slot_insert_mono _ _ _ _ _ _ _ _ _ Hle Hi). auto.
  - simpl.
    destruct (hashtable_slot_insert hash_str fuel _ _ _ _ _ _) as [r1| |] eqn:Hi;
      simpl; try discriminate.
    rewrite (slot_insert_mono _ _ _ _ _ _ _ _ _ Hle Hi). auto.
Qed.

Lemma remove_mono fuel fuel' hm key r :
  (fuel <= fuel')%nat ->
  hashmap_remove hash_str fuel hm key = Ret r ->
  hashmap_remove hash_str fuel' hm key = Ret r.
Proof.
  intros Hle. unfold hashmap_remove.
  destruct (hash_key hash_str key 0 (hm_capacity hm)); simpl; try discriminate.
  destruct (hm_slots hm) as [l|]; [|auto].
  destruct (probe hash_str fuel l _ _ _ _) as [pr| |] eqn:Hp;
    simpl; try discriminate.
  rewrite (probe_mono _ _ _ _ _ _ _ _ Hle Hp). auto.
Qed.

Lemma get_mono fuel fuel' hm key r :
  (fuel <= fuel')%nat ->
  hashmap_get hash_str fuel hm key = Ret r ->
  hashmap_get hash_str fuel' hm key = Ret r.
Proof.
  intros Hle. unfold hashmap_get.
  destruct key as [k|]; [|auto].
  destruct (hash_key hash_str (Some k) 0 (hm_capacity hm)); simpl; try discriminate.
  destruct (hm_slots hm) as [l|]; [|auto].
  destruct (probe hash_str fuel l _ _ _ _) as [pr| |] eqn:Hp;
    simpl; try discriminate.
  rewrite (probe_mono _ _ _ _ _ _ _ _ Hle Hp). auto.
Qed.

Lemma run_mono fuel fuel' ops : forall hm r,
  (fuel <= fuel')%nat ->
  run hash_str fuel ops hm = Ret r ->
  run hash_str fuel' ops hm = Ret r.
Proof.
  induction ops as [|o ops IH]; intros hm r Hle; simpl; [auto|].
  destruct (perform hash_str fuel hm o) as [hm1| |] eqn:Hp; simpl; try discriminate.
  assert (Hp' : perform hash_str fuel' hm o = Ret hm1).
  { destruct o as [k v|k]; simpl in *.
    - destruct (hashmap_insert hash_str fuel _ _ _ _ _) as [r1| |] eqn:Hi;
        simpl in Hp; try discriminate.
      rewrite (insert_mono _ _ _ _ _ _ _ _ Hle Hi). exact Hp.
    - destruct (hashmap_remove hash_str fuel _ _) as [r1| |] eqn:Hi;
        simpl in Hp; try discriminate.
      rewrite (remove_mono _ _ _ _ _ Hle Hi). exact Hp. }
  rewrite Hp'. simpl. apply IH. exact Hle.
Qed.

(** Two results of one run are equal, whatever their fuels. *)
Lemma run_deterministic fuel fuel' ops hm r r' :
  run hash_str fuel ops hm = Ret r ->
  run hash_str fuel' ops hm = Ret r' ->
  r = r'.
Proof.
  intros H H'.
  apply (run_mono _ (Nat.max fuel fuel')) in H; [|lia].
  apply (run_mono _ (Nat.max fuel fuel')) in H'; [|lia].
  congruence.
Qed.

End Fuel.

(** * Scenarios with the FNV-1a hash *)

(** [fresh] is what [hashmap_create] returns. *)
Lemma create_fresh capacity :
  hashmap_create true true capacity = Ret (Some (fresh capacity)).
Proof. reflexivity. Qed.

(** *** The probe function *)

(** The index of ["a"] at round 3 and capacity 64. *)
Lemma hash_key_index_witness :
  exists i, hash_key fnv32a_hash_str (Some "a") 3 64 = Ret i /\ 0 <= i < 64.
Proof.
  destruct (hash_key_index fnv32a_hash_str "a" 3 64) as (i & Hi & Hr & _).
  - unfold HT_PRIME, size_t_modulus. lia.
  - unfold size_t_modulus. lia.
  - exists i. split; [exact Hi | exact Hr].
Defined.

(** At round [2^63] and capacity 38 the product [r * h2] exceeds the range
    of [size_t]: [hash_key] returns 16, and [(h1 + r * h2) mod m] is 18. *)
Lemma hash_key_round_overflow :
  hash_key fnv32a_hash_str (Some "a") (2 ^ 63) 38 = Ret 16 /\
  (fnv32a_hash_str "a" mod 38
   + 2 ^ 63 * (37 + fnv32a_hash_str "a" mod (38 - 37))) mod 38 = 18.
Proof. split; vm_compute; reflexivity. Qed.

(** *** The scenario of the four inserts *)

(** C7 (amended): from [create(8)], the four inserts of ["a"], ["b"],
    ["c"], ["d"] give size 4 and leave the capacity at 8: when the fourth
    insert checks [size >= capacity / 2] the size is still 3, so it does
    not resize.  Then [get("a") = 1] and [get("b") = 2]; [remove("b")]
    makes [get("b")] absent and the size 3; [insert("b", 5)] makes
    [get("b") = 5] and the size 4, the capacity still being 8. *)
Theorem scenario_abcd :
  run fnv32a_hash_str 8
    [Insert "a" 1; Insert "b" 2; Insert "c" 3; Insert "d" 4] (fresh 8)
    = Ret table_abcd /\
  hm_size table_abcd = 4 /\ hm_capacity table_abcd = 8 /\
  hashmap_get fnv32a_hash_str 8 table_abcd (Some "a") = Ret 1 /\
  hashmap_get fnv32a_hash_str 8 table_abcd (Some "b") = Ret 2 /\
  hashmap_remove fnv32a_hash_str 8 table_abcd (Some "b") = Ret (table_acd, 1) /\
  hashmap_get fnv32a_hash_str 8 table_acd (Some "b") = Ret NULL /\
  hm_size table_acd = 3 /\
  hashmap_insert fnv32a_hash_str 8 true true table_acd (Some "b") 5
    = Ret (table_abcd5, Some "b") /\
  hashmap_get fnv32a_hash_str 8 table_abcd5 (Some "b") = Ret 5 /\
  hm_size table_abcd5 = 4 /\ hm_capacity table_abcd5 = 8.
Proof. vm_compute. repeat split. Qed.

(** With any hash function, the four inserts keep the capacity at 8 when
    they return. *)
Lemma four_inserts_keep_capacity (hash_str : string -> Z) (fuel : nat) (hm : HashMap) :
  run hash_str fuel
    [Insert "a" 1; Insert "b" 2; Insert "c" 3; Insert "d" 4] (fresh 8) = Ret hm ->
  hm_capacity hm = 8 /\ hm_size hm = 4.
Proof.
  intros Hrun.
  apply (inserts_below_threshold hash_str fuel _ _ _ (replicate 8 zero_slot)) in Hrun.
  - exact Hrun.
  - repeat constructor; eexists _, _; (split; [reflexivity | discriminate]).
  - reflexivity.
  - cbn. lia.
  - vm_compute. discriminate.
  - vm_compute. reflexivity.
Qed.

(** Whatever the fuel, the four inserts do not end in a table of
    capacity 16. *)
Lemma scenario_abcd_capacity_not_16 :
  ~ exists fuel hm,
      run fnv32a_hash_str fuel
        [Insert "a" 1; Insert "b" 2; Insert "c" 3; Insert "d" 4] (fresh 8)
        = Ret hm /\
      hm_capacity hm = 16.
Proof.
  intros (fuel & hm & Hrun & Hcap).
  assert (H8 : run fnv32a_hash_str 8
                 [Insert "a" 1; Insert "b" 2; Insert "c" 3; Insert "d" 4] (fresh 8)
               = Ret table_abcd) by (vm_compute; reflexivity).
  rewrite (run_deterministic _ _ _ _ _ _ _ Hrun H8) in Hcap.
  discriminate Hcap.
Qed.

(** C1: ["a"] and ["i"] share their first slot at capacity 8.  Both
    inserts succeed and [get("i")] returns 2; after [remove("a")], and no
    removal of ["i"], [get("i")] returns [NULL], with any fuel. *)
Theorem get_after_unrelated_remove :
  hashmap_insert fnv32a_hash_str 8 true true (fresh 8) (Some "a") 1
    = Ret (table_a, Some "a") /\
  hashmap_insert fnv32a_hash_str 8 true true table_a (Some "i") 2
    = Ret (table_ai, Some "i") /\
  hashmap_get fnv32a_hash_str 8 table_ai (Some "i") = Ret 2 /\
  hashmap_remove fnv32a_hash_str 8 table_ai (Some "a") = Ret (table_i, 1) /\
  forall fuel, hashmap_get fnv32a_hash_str (S fuel) table_i (Some "i") = Ret NULL.
Proof. repeat split; try (vm_compute; reflexivity). Qed.

(** C2: at capacity 64 the key ["orange"] probes slot 43, taken by
    ["plum"], and settles in slot 24.  Removing ["plum"] marks slot 43
    [DELETED] and nulls its key; ["orange"] still sits in slot 24, but the
    loop of [hashmap_get] stops at slot 43, whose key is null, and the key
    is reported absent. *)
Theorem tombstone_ends_probe_sequence :
  run fnv32a_hash_str 8 [Insert "plum" 1; Insert "orange" 2] (fresh 64)
    = Ret table_plum_orange /\
  hash_key fnv32a_hash_str (Some "orange") 0 64 = Ret 43 /\
  hash_key fnv32a_hash_str (Some "orange") 1 64 = Ret 24 /\
  hashmap_get fnv32a_hash_str 8 table_plum_orange (Some "orange") = Ret 2 /\
  hashmap_remove fnv32a_hash_str 8 table_plum_orange (Some "plum")
    = Ret (table_orange, 1) /\
  hm_slots table_orange ≫= (.!! 43%nat) = Some (mkSlot None NULL DELETED) /\
  hm_slots table_orange ≫= (.!! 24%nat) = Some (live "orange" 2) /\
  forall fuel, hashmap_get fnv32a_hash_str (S fuel) table_orange (Some "orange") = Ret NULL.
Proof. repeat split; try (vm_compute; reflexivity). Qed.

(** C3: inserting ["a"] a second time overwrites the value in its slot
    and raises the size from 1 to 2, with one key in the table. *)
Theorem update_increments_size :
  hashmap_insert fnv32a_hash_str 8 true true (fresh 8) (Some "a") 1
    = Ret (table_a, Some "a") /\
  hm_size table_a = 1 /\
  hashmap_insert fnv32a_hash_str 8 true true table_a (Some "a") 2
    = Ret (table_aa, Some "a") /\
  hm_size table_aa = 2 /\
  hashmap_get fnv32a_hash_str 8 table_aa (Some "a") = Ret 2.
Proof. vm_compute. repeat split. Qed.

(** After [remove("a")] the second [insert("i", 3)] takes the slot freed
    by ["a"] and leaves the older entry of ["i"] in slot 5.  Before the
    resize [get("i")] returns 3.  The insert of ["e"] resizes: the rehash
    meets slot 4 first, then slot 5, whose value overwrites the newer one,
    and [get("i")] returns 2. *)
Lemma resize_restores_stale_value :
  run fnv32a_hash_str 8
    [Insert "a" 1; Insert "i" 2; Remove "a"; Insert "i" 3; Insert "c" 4; Insert "d" 5]
    (fresh 8) = Ret table_ii /\
  hashmap_get fnv32a_hash_str 8 table_ii (Some "i") = Ret 3 /\
  hashmap_insert fnv32a_hash_str 8 true true table_ii (Some "e") 6
    = Ret (table_ii_resized, Some "e") /\
  hm_capacity table_ii_resized = 16 /\
  hashmap_get fnv32a_hash_str 8 table_ii_resized (Some "i") = Ret 2.
Proof. vm_compute. repeat split. Qed.

(** C9: the fifth insert into [table_abcd] resizes.  When [calloc] fails,
    the insert returns [NULL] and leaves a table with a null array, the
    capacity 16 and the size 4: the four entries are gone, a lookup reads
    through the null array, and every later insert returns [NULL]. *)
Theorem resize_allocation_failure :
  hashmap_insert fnv32a_hash_str 8 false true table_abcd (Some "e") 5
    = Ret (table_lost, None) /\
  hm_slots table_lost = None /\ hm_capacity table_lost = 16 /\
  (forall fuel, hashmap_get fnv32a_hash_str fuel table_lost (Some "a") = Undefined) /\
  (forall fuel calloc_ok strdup_ok key value,
     hashmap_insert fnv32a_hash_str fuel calloc_ok strdup_ok table_lost key value
       = Ret (table_lost, None)).
Proof. repeat split; try (vm_compute; reflexivity). Qed.

(** *** A lookup that ends, lookups that never return *)


Lemma cycle_of_four (i c : Z) :
  0 <= i < 64 -> i mod 16 = c ->
  i = c \/ i = c + 16 \/ i = c + 32 \/ i = c + 48.
Proof.
  intros Hi Hc. pose proof (Z.div_mod i 16 ltac:(lia)) as Hdm.
  pose proof (Z.mod_pos_bound i 16 ltac:(lia)) as Hb.
  rewrite Hc in Hdm, Hb. lia.
Qed.


(** The same at a capacity above 37: after [create(64)] and four inserts
    the lookup of ["l"] cycles through the slots 11, 59, 43 and 27, all
    taken. *)
Lemma get_never_completes_64 :
  run fnv32a_hash_str 8
    [Insert "fp" 1; Insert "au" 2; Insert "ae" 3; Insert "ck" 4] (fresh 64)
    = Ret table_cycle /\
  ~ exists fuel v, hashmap_get fnv32a_hash_str fuel table_cycle (Some "l") = Ret v.
Proof.
  split; [vm_compute; reflexivity|].
  intros (fuel & v & Hv).
  rewrite (get_cycles fnv32a_hash_str table_cycle _ "l"
             (fun i => 0 <= i < 64 /\ i mod 16 = 11) eq_refl) in Hv;
    [discriminate | |].
  - intros checks.
    destruct (hash_key_cycle_64 fnv32a_hash_str "l" checks) as (i & Hi & Hr & Hm);
      [vm_compute; split; [discriminate | reflexivity] | vm_compute; reflexivity |].
    exists i. split; [exact Hi|]. split; [exact Hr|].
    rewrite Hm. vm_compute. reflexivity.
  - intros i (Hr & Hm).
    destruct (cycle_of_four i 11 Hr Hm) as [-> | [-> | [-> | ->]]];
      [taken_by "fp" | taken_by "au" | taken_by "ae" | taken_by "ck"].
Qed.

(** *** A resize that never returns *)

(** The state of the rehash of [table_sixteen] when it comes to old slot
    31, which holds ["abe"]. *)
Lemma rehash_of_fifteen fuel :
  (8 <= fuel)%nat ->
  rehash fnv32a_hash_str fuel (hm_slots table_sixteen)
    (Some (replicate 64 zero_slot)) 64 0 31 = Ret (Some rehashed_fifteen).
Proof.
  intros Hle. apply (rehash_mono fnv32a_hash_str 8 fuel); [exact Hle|].
  vm_compute. reflexivity.
Qed.

(** In the new array the rounds of ["abe"] cycle through the slots 61,
    45, 29 and 13, taken by ["j"], ["z"], ["ac"] and ["as"]. *)
Lemma reinsertion_of_abe_spins fuel :
  hashtable_slot_insert fnv32a_hash_str fuel true (Some rehashed_fifteen) 64
    (Some "abe") 3 1 = OutOfFuel.
Proof.
  unfold hashtable_slot_insert.
  assert (Hcyc : forall checks, exists i,
    hash_key fnv32a_hash_str (Some "abe") checks 64 = Ret i /\
    (0 <= i < 64 /\ i mod 16 = 13)).
  { intros checks.
    destruct (hash_key_cycle_64 fnv32a_hash_str "abe" checks) as (i & Hi & Hr & Hm);
      [vm_compute; split; [discriminate | reflexivity] | vm_compute; reflexivity |].
    exists i. split; [exact Hi|]. split; [exact Hr|].
    rewrite Hm. vm_compute. reflexivity. }
  destruct (Hcyc 0) as (i0 & -> & Hi0). cbn [bind].
  rewrite (probe_cycles fnv32a_hash_str rehashed_fifteen 64 "abe"
             (fun i => 0 <= i < 64 /\ i mod 16 = 13) Hcyc); [reflexivity | | exact Hi0].
  intros i (Hr & Hm).
  destruct (cycle_of_four i 13 Hr Hm) as [-> | [-> | [-> | ->]]];
    [taken_by "as" | taken_by "ac" | taken_by "z" | taken_by "j"].
Qed.

Lemma expand_of_sixteen_spins fuel :
  (8 <= fuel)%nat ->
  hashtable_expand fnv32a_hash_str fuel true table_sixteen = OutOfFuel.
Proof.
  intros Hle. unfold hashtable_expand.
  change (wrap (hm_capacity table_sixteen * HT_EXPANSION_FACTOR)) with 64.
  change (Z.to_nat (hm_capacity table_sixteen)) with (31 + 1)%nat.
  change (Z.to_nat 64) with 64%nat.
  rewrite rehash_app, (rehash_of_fifteen fuel Hle). cbn [bind rehash].
  assert (Hold : exists l, hm_slots table_sixteen = Some l /\
                           l !! Z.to_nat (0 + Z.of_nat 31) = Some (live "abe" 3))
    by (eexists; split; [reflexivity | vm_compute; reflexivity]).
  destruct Hold as (l & -> & ->).
  cbn [slot_state slot_key slot_value live].
  rewrite reinsertion_of_abe_spins. reflexivity.
Qed.

(** Sixteen distinct keys are inserted into a table created with capacity
    32, with no removal and no failed allocation.  The seventeenth insert
    resizes, and the rehash never gets past ["abe"]: no fuel lets the
    insert return. *)
Lemma resize_never_returns :
  run fnv32a_hash_str 8 sixteen_inserts (fresh 32) = Ret table_sixteen /\
  ~ exists fuel r,
      hashmap_insert fnv32a_hash_str fuel true true table_sixteen (Some "q") 17 = Ret r.
Proof.
  split; [vm_compute; reflexivity|].
  intros (fuel & r & Hr).
  apply (insert_mono fnv32a_hash_str fuel (Nat.max fuel 8)) in Hr; [|lia].
  revert Hr. unfold hashmap_insert.
  destruct (hm_slots table_sixteen) as [l|] eqn:Hl; [|discriminate Hl].
  change (17 =? NULL) with false.
  change (hm_size table_sixteen >=? hm_capacity table_sixteen / HT_EXPANSION_FACTOR)
    with true.
  cbv iota. rewrite expand_of_sixteen_spins by lia. discriminate.
Qed.

(** C4: two runs in which a resize does not preserve what [hashmap_get]
    returns.  In the first, ["i"] is inserted with 2 and, after the
    removal of ["a"], with 3: [get("i")] returns 3 before the resize that
    the insert of ["e"] triggers, and 2 after it.  In the second, sixteen
    distinct keys are inserted into a table of capacity 32 and nothing is
    removed: the resize that the seventeenth insert triggers never
    returns. *)
Theorem resize_breaks_retrievability :
  (run fnv32a_hash_str 8
     [Insert "a" 1; Insert "i" 2; Remove "a"; Insert "i" 3; Insert "c" 4; Insert "d" 5]
     (fresh 8) = Ret table_ii /\
   hashmap_get fnv32a_hash_str 8 table_ii (Some "i") = Ret 3 /\
   hashmap_insert fnv32a_hash_str 8 true true table_ii (Some "e") 6
     = Ret (table_ii_resized, Some "e") /\
   hm_capacity table_ii_resized = 16 /\
   hashmap_get fnv32a_hash_str 8 table_ii_resized (Some "i") = Ret 2) /\
  (run fnv32a_hash_str 8 sixteen_inserts (fresh 32) = Ret table_sixteen /\
   ~ exists fuel r,
       hashmap_insert fnv32a_hash_str fuel true true table_sixteen (Some "q") 17 = Ret r).
Proof. split; [exact resize_restores_stale_value | exact resize_never_returns]. Qed.

(** * Further properties of the operations *)

(** ** The probe function at every capacity *)

Lemma wrap_zero_small z : - size_t_modulus < z < size_t_modulus -> wrap z = 0 -> z = 0.
Proof.
  unfold wrap, size_t_modulus. intros Hz Hw.
  apply Z.mod_divide in Hw; [|lia]. destruct Hw as (q & ->). nia.
Qed.

Section HashKeyCapacities.

Variable hash_str : string -> Z.

Lemma hash_key_range (s : string) (rounds m : Z) :
  usable_capacity m ->
  exists i, hash_key hash_str (Some s) rounds m = Ret i /\ 0 <= i < m.
Proof.
  intros ((Hm0 & Hm) & H37). unfold hash_key.
  destruct (Z.eqb_spec m 0) as [E|_]; [lia|].
  destruct (Z.eqb_spec (wrap (m - HT_PRIME)) 0) as [E|_].
  - apply wrap_zero_small in E; unfold HT_PRIME, size_t_modulus in *; lia.
  - eexists. split; [reflexivity|]. apply Z.mod_pos_bound. lia.
Qed.

(** For every capacity other than 0 and 37 [hash_key] returns an index
    that lies within an array of that capacity, for every key and every
    round; this includes the capacities below 37, where [m - HT_PRIME]
    wraps around. *)
Theorem hash_key_in_bounds (s : string) (rounds m : Z) :
  usable_capacity m ->
  exists i, hash_key hash_str (Some s) rounds m = Ret i /\ 0 <= i < m.
Proof. apply hash_key_range. Qed.

(** [hash_key] divides by zero exactly at the capacities 0 ([k % m]) and
    37 ([k % (m - 37)]). *)
Theorem hash_key_undefined_iff (s : string) (rounds m : Z) :
  0 <= m < size_t_modulus ->
  hash_key hash_str (Some s) rounds m = Undefined <-> m = 0 \/ m = HT_PRIME.
Proof.
  intros Hm. split.
  - intros Hu.
    destruct (Z.eq_dec m 0) as [E|H0]; [auto|].
    destruct (Z.eq_dec m HT_PRIME) as [E|H37]; [auto|].
    destruct (hash_key_range s rounds m) as (i & Hi & _);
      [split; [lia | exact H37] | congruence].
  - intros [-> | ->]; reflexivity.
Qed.

End HashKeyCapacities.

Lemma hash_key_in_bounds_witness :
  exists i, hash_key fnv32a_hash_str (Some "a") 1 8 = Ret i /\ 0 <= i < 8.
Proof.
  apply (hash_key_in_bounds fnv32a_hash_str "a" 1 8).
  split; [unfold size_t_modulus; lia | discriminate].
Defined.

Lemma hash_key_undefined_iff_witness :
  hash_key fnv32a_hash_str (Some "a") 0 37 = Undefined <-> 37 = 0 \/ 37 = HT_PRIME.
Proof.
  apply (hash_key_undefined_iff fnv32a_hash_str "a" 0 37).
  unfold size_t_modulus. lia.
Defined.

(** ** Well-formed tables and defined behaviour *)

Lemma slot_shape_occupied s :
  slot_shape s -> occupied s = true -> exists k v, s = live k v /\ v <> NULL.
Proof.
  intros [-> | [-> | H]] Ho; [discriminate Ho | discriminate Ho | exact H].
Qed.

Lemma slot_shape_inserted s :
  slot_shape s -> slot_state s = INSERTED -> exists k v, s = live k v /\ v <> NULL.
Proof.
  intros [-> | [-> | H]] Hs; [discriminate Hs | discriminate Hs | exact H].
Qed.

Lemma fresh_well_formed capacity : well_formed (fresh capacity).
Proof.
  exists (replicate (Z.to_nat capacity) zero_slot). split; [reflexivity|].
  split; [apply length_replicate|].
  apply Forall_replicate. left. reflexivity.
Qed.

Section Safety.

Variable hash_str : string -> Z.

Lemma probe_defined fuel : forall slots capacity k index checks,
  usable_capacity capacity ->
  length slots = Z.to_nat capacity ->
  0 <= index < capacity ->
  probe hash_str fuel slots capacity (Some k) index checks <> Undefined.
Proof.
  induction fuel as [|fuel IH]; intros slots capacity k index checks Hcap Hlen Hi;
    [discriminate|].
  cbn [probe].
  destruct (lookup_lt_is_Some_2 slots (Z.to_nat index) ltac:(lia)) as (s & ->).
  destruct (occupied s) eqn:Ho; [|discriminate].
  unfold occupied in Ho. destruct (slot_key s) as [sk|]; [|discriminate Ho].
  destruct (String.eqb sk k); [discriminate|].
  destruct (hash_key_range hash_str k (wrap (checks + 1)) capacity Hcap)
    as (i' & -> & Hi').
  cbn [bind]. apply IH; assumption.
Qed.

(** On a well-formed table whose capacity is neither 0 nor 37 a lookup
    reads no slot outside the array and divides by no zero: it returns, or
    it is still probing when the fuel ends. *)
Theorem get_defined (fuel : nat) (hm : HashMap) (key : option string) :
  well_formed hm ->
  usable_capacity (hm_capacity hm) ->
  hashmap_get hash_str fuel hm key <> Undefined.
Proof.
  intros (l & Hsl & Hlen & _) Hcap. unfold hashmap_get.
  destruct key as [k|]; [|discriminate].
  destruct (hash_key_range hash_str k 0 (hm_capacity hm) Hcap) as (i & -> & Hi).
  rewrite Hsl. cbn [bind].
  pose proof (probe_defined fuel l (hm_capacity hm) k i 0 Hcap Hlen Hi) as Hp.
  destruct (probe hash_str fuel l (hm_capacity hm) (Some k) i 0) as [[j s|j]| |];
    cbn [bind]; congruence.
Qed.

(** The same for the removal of a non-null key. *)
Theorem remove_defined (fuel : nat) (hm : HashMap) (k : string) :
  well_formed hm ->
  usable_capacity (hm_capacity hm) ->
  hashmap_remove hash_str fuel hm (Some k) <> Undefined.
Proof.
  intros (l & Hsl & Hlen & _) Hcap. unfold hashmap_remove.
  destruct (hash_key_range hash_str k 0 (hm_capacity hm) Hcap) as (i & -> & Hi).
  rewrite Hsl. cbn [bind].
  pose proof (probe_defined fuel l (hm_capacity hm) k i 0 Hcap Hlen Hi) as Hp.
  destruct (probe hash_str fuel l (hm_capacity hm) (Some k) i 0) as [[j s|j]| |];
    cbn [bind]; congruence.
Qed.

Lemma slot_insert_defined fuel sd slots capacity k v cpy :
  usable_capacity capacity ->
  length slots = Z.to_nat capacity ->
  hashtable_slot_insert hash_str fuel sd (Some slots) capacity (Some k) v cpy
    <> Undefined.
Proof.
  intros Hcap Hlen. unfold hashtable_slot_insert.
  destruct (hash_key_range hash_str k 0 capacity Hcap) as (i & -> & Hi).
  cbn [bind].
  pose proof (probe_defined fuel slots capacity k i 0 Hcap Hlen Hi) as Hp.
  destruct (probe hash_str fuel slots capacity (Some k) i 0) as [[j s|j]| |];
    cbn [bind]; try congruence.
  destruct (cpy =? 0); [destruct sd|]; discriminate.
Qed.

Lemma slot_insert_shape fuel sd slots capacity k v cpy slots' res :
  Forall slot_shape slots ->
  v <> NULL ->
  hashtable_slot_insert hash_str fuel sd (Some slots) capacity (Some k) v cpy
    = Ret (Some slots', res) ->
  Forall slot_shape slots'.
Proof.
  intros Hall Hv H. apply slot_insert_inv in H.
  destruct H as (i0 & n & r & _ & _ & Hpr &
    [(s & Hr & _ & [= ->])|[(_ & _ & [= ->])|(_ & _ & [= ->] & _)]]);
    [| |exact Hall].
  - apply Forall_insert; [exact Hall|].
    apply probes_final in Hpr. rewrite Hr in Hpr. destruct Hpr as (Hl & Ho & Hk).
    destruct (slot_shape_occupied s (Forall_lookup_1 _ _ _ _ Hall Hl) Ho)
      as (k' & v' & -> & _).
    right; right. exists k', v. split; [reflexivity | exact Hv].
  - apply Forall_insert; [exact Hall|].
    right; right. exists k, v. split; [reflexivity | exact Hv].
Qed.

Lemma rehash_shapes fuel old capacity :
  Forall slot_shape old ->
  forall n (i : nat) nw res,
    Forall slot_shape nw ->
    rehash hash_str fuel (Some old) (Some nw) capacity (Z.of_nat i) n = Ret res ->
    exists nw', res = Some nw' /\ length nw' = length nw /\ Forall slot_shape nw'.
Proof.
  intros Hold. induction n as [|n IH]; intros i nw res Hnw Hr.
  - injection Hr as <-. eauto.
  - cbn [rehash] in Hr. rewrite Nat2Z.id in Hr.
    destruct (old !! i) as [slot|] eqn:Hslot; [|discriminate].
    replace (Z.of_nat i + 1) with (Z.of_nat (S i)) in Hr by lia.
    destruct (slot_state slot) eqn:Hstate; cbn [bind] in Hr;
      try (apply (IH (S i) nw res Hnw Hr)).
    destruct (slot_shape_inserted slot (Forall_lookup_1 _ _ _ _ Hold Hslot) Hstate)
      as (k & v & -> & Hv).
    cbn [slot_key slot_value live] in Hr.
    destruct (hashtable_slot_insert hash_str fuel true (Some nw) capacity
                (Some k) v 1) as [[ns rs]| |] eqn:Hins; try discriminate.
    cbn [bind fst] in Hr.
    destruct (slot_insert_array _ _ _ _ _ _ _ _ _ _ Hins) as (nw1 & -> & Hlen1).
    pose proof (slot_insert_shape _ _ _ _ _ _ _ _ _ Hnw Hv Hins) as Hnw1.
    destruct (IH (S i) nw1 res Hnw1 Hr) as (nw' & -> & Hlen' & Hall').
    exists nw'. repeat split; [congruence | exact Hall'].
Qed.

Lemma rehash_defined fuel old capacity :
  Forall slot_shape old ->
  usable_capacity capacity ->
  forall n (i : nat) nw,
    (i + n <= length old)%nat ->
    length nw = Z.to_nat capacity ->
    rehash hash_str fuel (Some old) (Some nw) capacity (Z.of_nat i) n <> Undefined.
Proof.
  intros Hold Hcap. induction n as [|n IH]; intros i nw Hlen Hnw; [discriminate|].
  cbn [rehash]. rewrite Nat2Z.id.
  destruct (lookup_lt_is_Some_2 old i ltac:(lia)) as (slot & Hslot).
  rewrite Hslot.
  replace (Z.of_nat i + 1) with (Z.of_nat (S i)) by lia.
  destruct (slot_state slot) eqn:Hstate; cbn [bind];
    try (apply IH; [lia | exact Hnw]).
  destruct (slot_shape_inserted slot (Forall_lookup_1 _ _ _ _ Hold Hslot) Hstate)
    as (k & v & -> & Hv).
  cbn [slot_key slot_value live].
  pose proof (slot_insert_defined fuel true nw capacity k v 1 Hcap Hnw) as Hd.
  destruct (hashtable_slot_insert hash_str fuel true (Some nw) capacity
              (Some k) v 1) as [[ns rs]| |] eqn:Hins; try congruence;
    [|discriminate].
  cbn [bind fst].
  destruct (slot_insert_array _ _ _ _ _ _ _ _ _ _ Hins) as (nw1 & -> & Hlen1).
  apply IH; [lia | congruence].
Qed.

(** [hashmap_insert] keeps a table well formed, resize or not, as long as
    the resize gets its array. *)
Theorem insert_well_formed (fuel : nat) (strdup_ok : bool) (hm hm' : HashMap)
    (k : string) (v : Z) (res : option string) :
  well_formed hm ->
  hashmap_insert hash_str fuel true strdup_ok hm (Some k) v = Ret (hm', res) ->
  well_formed hm'.
Proof.
  intros (l & Hsl & Hlen & Hall) H. unfold hashmap_insert in H. rewrite Hsl in H.
  destruct (Z.eqb_spec v NULL) as [E|Hv].
  { injection H as <- _. exists l. auto. }
  assert (He : forall e,
    (if hm_size hm >=? hm_capacity hm / HT_EXPANSION_FACTOR
     then hashtable_expand hash_str fuel true hm
     else Ret (hm, hm_capacity hm)) = Ret e ->
    well_formed e.1).
  { intros e. destruct (_ >=? _).
    - unfold hashtable_expand. rewrite Hsl.
      destruct (rehash hash_str fuel (Some l) _ _ 0 _) as [ns| |] eqn:Hr;
        cbn [bind]; try discriminate.
      intros [= <-]. change 0 with (Z.of_nat 0) in Hr.
      apply (rehash_shapes fuel l _ Hall) in Hr;
        [|apply Forall_replicate; left; reflexivity].
      destruct Hr as (nw' & -> & Hlen' & Hall').
      exists nw'. cbn. rewrite Hlen', length_replicate. auto.
    - intros [= <-]. exists l. auto. }
  destruct (if hm_size hm >=? hm_capacity hm / HT_EXPANSION_FACTOR
            then hashtable_expand hash_str fuel true hm
            else Ret (hm, hm_capacity hm)) as [e| |]; try discriminate.
  specialize (He e eq_refl). destruct He as (l1 & Hsl1 & Hlen1 & Hall1).
  cbn [bind] in H. rewrite Hsl1 in H.
  destruct (hashtable_slot_insert hash_str fuel strdup_ok (Some l1) e.2 (Some k) v 0)
    as [[ns rs]| |] eqn:Hins; try discriminate.
  cbn [bind fst snd] in H.
  destruct (slot_insert_array _ _ _ _ _ _ _ _ _ _ Hins) as (l2 & -> & Hlen2).
  pose proof (slot_insert_shape _ _ _ _ _ _ _ _ _ Hall1 Hv Hins) as Hall2.
  destruct rs; injection H as <- _; exists l2; cbn; repeat split;
    try congruence; exact Hall2.
Qed.

(** [hashmap_remove] keeps a table well formed. *)
Theorem remove_well_formed (fuel : nat) (hm hm' : HashMap) (key : option string)
    (r : Z) :
  well_formed hm ->
  hashmap_remove hash_str fuel hm key = Ret (hm', r) ->
  well_formed hm'.
Proof.
  intros (l & Hsl & Hlen & Hall) H. unfold hashmap_remove in H.
  destruct (hash_key hash_str key 0 (hm_capacity hm)) as [i| |]; try discriminate.
  rewrite Hsl in H. cbn [bind] in H.
  destruct (probe hash_str fuel l (hm_capacity hm) key i 0) as [[j s|j]| |];
    try discriminate; cbn [bind] in H; injection H as <- _.
  - exists (<[Z.to_nat j := mkSlot None NULL DELETED]> l). cbn.
    split; [reflexivity|]. split; [rewrite length_insert; exact Hlen|].
    apply Forall_insert; [exact Hall|]. right; left. reflexivity.
  - exists l. auto.
Qed.

(** On a well-formed table whose capacity and its double are in range, an
    insert never runs into undefined behaviour, whether it resizes or not
    and whatever the allocations do. *)
Theorem insert_defined (fuel : nat) (calloc_ok strdup_ok : bool) (hm : HashMap)
    (k : string) (v : Z) :
  well_formed hm ->
  usable_capacity (hm_capacity hm) ->
  hm_capacity hm * HT_EXPANSION_FACTOR < size_t_modulus ->
  hashmap_insert hash_str fuel calloc_ok strdup_ok hm (Some k) v <> Undefined.
Proof.
  intros (l & Hsl & Hlen & Hall) Hcap Hdouble. unfold hashmap_insert. rewrite Hsl.
  destruct (v =? NULL); [discriminate|].
  destruct (hm_size hm >=? hm_capacity hm / HT_EXPANSION_FACTOR).
  - unfold hashtable_expand. rewrite Hsl.
    destruct Hcap as ((Hc0 & Hc1) & Hc37).
    assert (Hw : wrap (hm_capacity hm * HT_EXPANSION_FACTOR)
                 = hm_capacity hm * HT_EXPANSION_FACTOR)
      by (apply wrap_small; unfold HT_EXPANSION_FACTOR in *; lia).
    rewrite Hw.
    assert (Hcap' : usable_capacity (hm_capacity hm * HT_EXPANSION_FACTOR))
      by (unfold usable_capacity, HT_EXPANSION_FACTOR, HT_PRIME in *; lia).
    destruct calloc_ok.
    + pose proof (rehash_defined fuel l _ Hall Hcap' (Z.to_nat (hm_capacity hm)) 0
                    (replicate (Z.to_nat (hm_capacity hm * HT_EXPANSION_FACTOR)) zero_slot)
                    ltac:(lia) (length_replicate _ _)) as Hd.
      change (Z.of_nat 0) with 0 in Hd.
      destruct (rehash hash_str fuel (Some l) _ _ 0 _) as [ns| |] eqn:Hr;
        try congruence; [|discriminate].
      cbn [bind fst snd hm_slots].
      change 0 with (Z.of_nat 0) in Hr at 1.
      apply (rehash_shapes fuel l _ Hall) in Hr;
        [|apply Forall_replicate; left; reflexivity].
      destruct Hr as (nw' & -> & Hlen' & _).
      pose proof (slot_insert_defined fuel strdup_ok nw' _ k v 0 Hcap'
                    ltac:(rewrite Hlen'; apply length_replicate)) as Hs.
      destruct (hashtable_slot_insert hash_str fuel strdup_ok (Some nw') _ (Some k) v 0)
        as [[ns rs]| |]; try congruence; [|cbn [bind]; discriminate].
      cbn [bind snd]. destruct rs; discriminate.
    + assert (Hn : rehash hash_str fuel (Some l) None
                     (hm_capacity hm * HT_EXPANSION_FACTOR) 0
                     (Z.to_nat (hm_capacity hm)) = Ret None)
        by (apply (rehash_null hash_str fuel l _ _ 0%nat); lia).
      rewrite Hn. cbn. discriminate.
  - cbn [bind fst snd]. rewrite Hsl.
    pose proof (slot_insert_defined fuel strdup_ok l _ k v 0 Hcap Hlen) as Hs.
    destruct (hashtable_slot_insert hash_str fuel strdup_ok (Some l) _ (Some k) v 0)
      as [[ns rs]| |]; try congruence; [|cbn [bind]; discriminate].
    cbn [bind snd]. destruct rs; discriminate.
Qed.

End Safety.

(** ** What lookups, inserts and removals tell about each other *)

Section Outcomes.

Variable hash_str : string -> Z.

(** Emptying the slot where the loop left with a hit makes the same run
    a miss at that slot. *)
Lemma probes_vacate slots capacity k index checks n r s' :
  probes hash_str slots capacity k index checks n r ->
  occupied s' = false ->
  probes hash_str (<[Z.to_nat (final_index r) := s']> slots) capacity k
    index checks n (Miss (final_index r)).
Proof.
  intros Hp Ho'.
  induction Hp as [index checks s Hs Ho Hk | index checks s Hs Ho
                  | index checks s sk index' n r Hs Ho Hk Hne Hh Hp IH]; simpl.
  - apply probes_miss with (s := s'); auto.
    apply list_lookup_insert_eq. eapply lookup_lt_Some; eauto.
  - apply probes_miss with (s := s'); auto.
    apply list_lookup_insert_eq. eapply lookup_lt_Some; eauto.
  - apply probes_next with (s := s) (sk := sk) (index' := index'); auto.
    rewrite list_lookup_insert_ne; [exact Hs|].
    intros E. apply probes_final in Hp.
    destruct r as [j sj|j]; simpl in E; rewrite E in Hp.
    + destruct Hp as (Hj & _ & Hkj). congruence.
    + destruct Hp as (sj & Hj & Hoj). congruence.
Qed.

(** A lookup that returns a non-null value has found the key. *)
Lemma get_stored fuel hm slots k v :
  hm_slots hm = Some slots ->
  hashmap_get hash_str fuel hm (Some k) = Ret v ->
  v <> NULL ->
  stored hash_str fuel slots (hm_capacity hm) k v.
Proof.
  intros Hsl H Hv. unfold hashmap_get in H. rewrite Hsl in H.
  destruct (hash_key hash_str (Some k) 0 (hm_capacity hm)) as [i0| |] eqn:Hh;
    try discriminate.
  cbn [bind] in H.
  destruct (probe hash_str fuel slots (hm_capacity hm) (Some k) i0 0)
    as [[j s|j]| |] eqn:Hp; try discriminate; cbn [bind] in H; injection H as H.
  - apply probe_sound in Hp. destruct Hp as (n & Hn & Hpr).
    exists i0, n, j, s. auto.
  - congruence.
Qed.

Lemma stored_get fuel hm slots k v :
  hm_slots hm = Some slots ->
  stored hash_str fuel slots (hm_capacity hm) k v ->
  hashmap_get hash_str fuel hm (Some k) = Ret v.
Proof.
  intros Hsl (i0 & n & j & s & Hh & Hn & Hpr & Hv).
  unfold hashmap_get. rewrite Hh, Hsl. cbn [bind].
  rewrite (probe_complete _ _ _ _ _ _ _ _ Hpr fuel Hn). cbn. congruence.
Qed.

(** [hashmap_remove] returns 0 or 1.  It returns 0 when the lookup of the
    key ends at a free slot, and then the table is left as it was.  It
    returns 1 when the lookup finds the key: then the size is decremented,
    the capacity kept, and the one slot that the lookup found is left
    with a null key, a null value and the state [DELETED]. *)
Theorem remove_outcome (fuel : nat) (hm hm' : HashMap) (k : string) (r : Z) :
  hashmap_remove hash_str fuel hm (Some k) = Ret (hm', r) ->
  (r = 0 /\ hm' = hm /\ hashmap_get hash_str fuel hm (Some k) = Ret NULL) \/
  (r = 1 /\
   exists slots j s,
     hm_slots hm = Some slots /\
     slots !! Z.to_nat j = Some s /\
     slot_key s = Some k /\
     hashmap_get hash_str fuel hm (Some k) = Ret (slot_value s) /\
     hm' = mkMap (Some (<[Z.to_nat j := tombstone]> slots))
                 (wrap (hm_size hm - 1)) (hm_capacity hm)).
Proof.
  unfold hashmap_remove, hashmap_get.
  destruct (hash_key hash_str (Some k) 0 (hm_capacity hm)) as [i0| |];
    try discriminate.
  cbn [bind]. destruct (hm_slots hm) as [l|] eqn:Hsl; [|discriminate].
  destruct (probe hash_str fuel l (hm_capacity hm) (Some k) i0 0)
    as [[j s|j]| |] eqn:Hp; try discriminate; cbn [bind]; intros [= <- <-].
  - right. split; [reflexivity|]. exists l, j, s.
    apply probe_sound in Hp. destruct Hp as (n & _ & Hpr).
    apply probes_final in Hpr. destruct Hpr as (Hl & _ & Hk). auto.
  - left. auto.
Qed.

(** After a removal that returned 1 the key is absent: a lookup returns
    [NULL], and a second removal returns 0 and changes nothing. *)
Theorem get_after_remove (fuel : nat) (hm hm' : HashMap) (k : string) :
  hashmap_remove hash_str fuel hm (Some k) = Ret (hm', 1) ->
  hashmap_get hash_str fuel hm' (Some k) = Ret NULL /\
  hashmap_remove hash_str fuel hm' (Some k) = Ret (hm', 0).
Proof.
  unfold hashmap_remove, hashmap_get.
  destruct (hash_key hash_str (Some k) 0 (hm_capacity hm)) as [i0| |] eqn:Hh;
    try discriminate.
  cbn [bind]. destruct (hm_slots hm) as [l|] eqn:Hsl; [|discriminate].
  destruct (probe hash_str fuel l (hm_capacity hm) (Some k) i0 0)
    as [[j s|j]| |] eqn:Hp; try discriminate; cbn [bind]; intros [= <-].
  cbn [hm_capacity hm_slots]. rewrite Hh. cbn [bind].
  apply probe_sound in Hp. destruct Hp as (n & Hn & Hpr).
  pose proof (probes_vacate _ _ _ _ _ _ _ (mkSlot None NULL DELETED) Hpr eq_refl)
    as Hpr'.
  cbn [final_index] in Hpr'.
  rewrite (probe_complete _ _ _ _ _ _ _ _ Hpr' fuel Hn). cbn [bind].
  split; reflexivity.
Qed.

(** The result of [hashmap_insert] for a non-null key.  With [NULL]
    returned the size is unchanged.  Otherwise the pointer returned is the
    stored key, equal to the key given, the size is incremented, and a
    lookup of the key returns the value.  The capacity is kept or
    doubled. *)
Theorem insert_outcome (fuel : nat) (calloc_ok strdup_ok : bool)
    (hm hm' : HashMap) (k : string) (v : Z) (res : option string) :
  hashmap_insert hash_str fuel calloc_ok strdup_ok hm (Some k) v = Ret (hm', res) ->
  (hm_capacity hm' = hm_capacity hm \/
   hm_capacity hm' = wrap (hm_capacity hm * HT_EXPANSION_FACTOR)) /\
  match res with
  | None => hm_size hm' = hm_size hm
  | Some p =>
      p = k /\ v <> NULL /\
      hm_size hm' = wrap (hm_size hm + 1) /\
      hashmap_get hash_str fuel hm' (Some k) = Ret v
  end.
Proof.
  intros H.
  assert (Hget : forall p, res = Some p ->
            hashmap_get hash_str fuel hm' (Some k) = Ret v).
  { intros p ->. eapply get_after_insert. exact H. }
  revert H. unfold hashmap_insert.
  destruct (hm_slots hm) as [l|] eqn:Hsl; [|intros [= <- <-]; auto].
  destruct (Z.eqb_spec v NULL) as [E|Hv]; [intros [= <- <-]; auto|].
  set (e := if hm_size hm >=? hm_capacity hm / HT_EXPANSION_FACTOR
            then hashtable_expand hash_str fuel calloc_ok hm
            else Ret (hm, hm_capacity hm)).
  assert (He : forall hm1 c, e = Ret (hm1, c) ->
            hm_size hm1 = hm_size hm /\
            (hm_capacity hm1 = hm_capacity hm \/
             hm_capacity hm1 = wrap (hm_capacity hm * HT_EXPANSION_FACTOR))).
  { subst e. intros hm1 c. destruct (_ >=? _).
    - intros He. apply expand_capacity in He. destruct He as (_ & ? & ?). auto.
    - intros [= <- <-]. auto. }
  destruct e as [[hm1 c]| |]; try discriminate.
  destruct (He hm1 c eq_refl) as (Hsz & Hc). clear He.
  cbn [bind fst snd].
  destruct (hashtable_slot_insert hash_str fuel strdup_ok (hm_slots hm1) c (Some k) v 0)
    as [[ns rs]| |] eqn:Hins; try discriminate.
  cbn [bind fst snd]. destruct rs as [p|]; intros [= <- <-]; cbn.
  - split; [exact Hc|]. rewrite Hsz.
    assert (p = k).
    { destruct (hm_slots hm1) as [l1|]; [|discriminate Hins].
      apply slot_insert_inv in Hins.
      destruct Hins as (? & ? & ? & _ & _ & _ &
        [(? & _ & ? & _)|[(_ & ? & _)|(_ & ? & _)]]); congruence. }
    repeat split; eauto.
  - split; [exact Hc | exact Hsz].
Qed.

(** Below the resize threshold a failed key duplication makes the insert
    return [NULL] and leave the table as it was; the insert of a key that
    a lookup finds needs no duplication and succeeds all the same. *)
Theorem insert_strdup_failure (fuel : nat) (calloc_ok : bool)
    (hm hm' : HashMap) (k : string) (v : Z) (res : option string) :
  hm_size hm < hm_capacity hm / HT_EXPANSION_FACTOR ->
  hashmap_insert hash_str fuel calloc_ok false hm (Some k) v = Ret (hm', res) ->
  (res = None /\ hm' = hm) \/
  (res = Some k /\ exists v0 slots,
     hm_slots hm = Some slots /\
     stored hash_str fuel slots (hm_capacity hm) k v0).
Proof.
  intros Hsize. unfold hashmap_insert.
  destruct (hm_slots hm) as [l|] eqn:Hsl; [|intros [= <- <-]; auto].
  destruct (Z.eqb_spec v NULL) as [E|Hv]; [intros [= <- <-]; auto|].
  destruct (Z.geb_spec (hm_size hm) (hm_capacity hm / HT_EXPANSION_FACTOR));
    [lia|].
  cbn [bind fst snd]. rewrite Hsl.
  destruct (hashtable_slot_insert hash_str fuel false (Some l) (hm_capacity hm)
              (Some k) v 0) as [[ns rs]| |] eqn:Hins; try discriminate.
  cbn [bind fst snd]. unfold hashtable_slot_insert in Hins.
  destruct (hash_key hash_str (Some k) 0 (hm_capacity hm)) as [i0| |] eqn:Hh;
    try discriminate.
  cbn [bind] in Hins.
  destruct (probe hash_str fuel l (hm_capacity hm) (Some k) i0 0)
    as [[j s|j]| |] eqn:Hp; try discriminate; cbn in Hins;
    injection Hins as <- <-.
  - apply probe_sound in Hp. destruct Hp as (n & Hn & Hpr).
    pose proof (probes_final _ _ _ _ _ _ _ _ Hpr) as (_ & _ & Hk).
    rewrite Hk. intros [= <- <-]. right. split; [reflexivity|].
    exists (slot_value s), l. split; [reflexivity|].
    exists i0, n, j, s. auto.
  - intros [= <- <-]. left. split; [reflexivity|].
    destruct hm as [sl sz cp]. cbn in *. congruence.
Qed.

End Outcomes.

Section RoundTrips.

Variable hash_str : string -> Z.

(** Below the resize threshold an insert leaves the value of every other
    key that a lookup finds. *)
Theorem insert_keeps_other_keys (fuel : nat) (calloc_ok strdup_ok : bool)
    (hm hm' : HashMap) (k k' : string) (v v' : Z) (res : option string) :
  hm_size hm < hm_capacity hm / HT_EXPANSION_FACTOR ->
  hashmap_insert hash_str fuel calloc_ok strdup_ok hm (Some k) v = Ret (hm', res) ->
  k' <> k ->
  hashmap_get hash_str fuel hm (Some k') = Ret v' ->
  v' <> NULL ->
  hashmap_get hash_str fuel hm' (Some k') = Ret v'.
Proof.
  intros Hsize H Hne Hget Hv'. revert H. unfold hashmap_insert.
  destruct (hm_slots hm) as [l|] eqn:Hsl; [|intros [= <- <-]; exact Hget].
  destruct (v =? NULL); [intros [= <- <-]; exact Hget|].
  destruct (Z.geb_spec (hm_size hm) (hm_capacity hm / HT_EXPANSION_FACTOR));
    [lia|].
  cbn [bind fst snd]. rewrite Hsl.
  destruct (hashtable_slot_insert hash_str fuel strdup_ok (Some l) (hm_capacity hm)
              (Some k) v 0) as [[ns rs]| |] eqn:Hins; try discriminate.
  cbn [bind fst snd].
  destruct (slot_insert_array _ _ _ _ _ _ _ _ _ _ Hins) as (l' & -> & _).
  pose proof (get_stored hash_str fuel hm l k' v' Hsl Hget Hv') as Hst.
  pose proof (slot_insert_frame _ _ _ _ _ _ _ _ _ _ _ _ Hins Hne Hst) as Hst'.
  destruct rs; intros [= <- <-];
    apply (stored_get hash_str fuel _ l'); auto.
Qed.

(** Removing a key and inserting it again with the value it had gives
    back the very table: the insert takes the slot that the removal
    left, and the size returns to what it was. *)
Theorem remove_insert_restores (fuel : nat) (calloc_ok : bool)
    (hm hm1 : HashMap) (k : string) (v : Z) :
  well_formed hm ->
  0 < hm_size hm <= hm_capacity hm / HT_EXPANSION_FACTOR ->
  hm_capacity hm < size_t_modulus ->
  hashmap_get hash_str fuel hm (Some k) = Ret v ->
  hashmap_remove hash_str fuel hm (Some k) = Ret (hm1, 1) ->
  hashmap_insert hash_str fuel calloc_ok true hm1 (Some k) v = Ret (hm, Some k).
Proof.
  intros (l0 & Hsl0 & _ & Hall) Hsize Hcap Hget Hrem.
  assert (Hhalf : hm_capacity hm / HT_EXPANSION_FACTOR <= hm_capacity hm).
  { unfold HT_EXPANSION_FACTOR in *.
    pose proof (Z.mul_div_le (hm_capacity hm) 2 ltac:(lia)). lia. }
  revert Hget Hrem. unfold hashmap_remove, hashmap_get.
  destruct (hash_key hash_str (Some k) 0 (hm_capacity hm)) as [i0| |] eqn:Hh;
    try discriminate.
  cbn [bind]. rewrite Hsl0.
  destruct (probe hash_str fuel l0 (hm_capacity hm) (Some k) i0 0)
    as [[j s|j]| |] eqn:Hp; try discriminate; cbn [bind];
    intros [= Hv] [= <-].
  apply probe_sound in Hp. destruct Hp as (n & Hn & Hpr).
  pose proof (probes_final _ _ _ _ _ _ _ _ Hpr) as (Hl & Ho & Hk).
  destruct (slot_shape_occupied s (Forall_lookup_1 _ _ _ _ Hall Hl) Ho)
    as (k' & v0 & -> & Hv0).
  cbn in Hk, Hv. injection Hk as ->. subst v0.
  pose proof (probes_vacate _ _ _ _ _ _ _ _ (mkSlot None NULL DELETED) Hpr eq_refl)
    as Hpr'.
  cbn [final_index] in Hpr'.
  unfold hashmap_insert. cbn [hm_slots hm_size hm_capacity].
  destruct (Z.eqb_spec v NULL) as [E|_]; [contradiction|].
  rewrite (wrap_small (hm_size hm - 1)) by lia.
  destruct (Z.geb_spec (hm_size hm - 1) (hm_capacity hm / HT_EXPANSION_FACTOR));
    [lia|].
  cbn [bind fst snd hm_slots hm_size hm_capacity].
  unfold hashtable_slot_insert. rewrite Hh. cbn [bind].
  rewrite (probe_complete _ _ _ _ _ _ _ _ Hpr' fuel Hn). cbn.
  rewrite list_insert_insert_eq,
    (list_insert_id l0 (Z.to_nat j) (mkSlot (Some k) v INSERTED) Hl).
  replace (hm_size hm - 1 + 1) with (hm_size hm) by lia.
  rewrite (wrap_small (hm_size hm)) by lia.
  destruct hm as [sl sz cp]. cbn in *. congruence.
Qed.

(** A table just created is well formed and empty: for a capacity other
    than 0 and 37 every lookup returns [NULL] and every removal returns 0
    and changes nothing. *)
Theorem create_empty (calloc_ok malloc_ok : bool) (capacity : Z) (hm : HashMap)
    (fuel : nat) (k : string) :
  hashmap_create malloc_ok calloc_ok capacity = Ret (Some hm) ->
  usable_capacity capacity ->
  well_formed hm /\
  hm_size hm = 0 /\ hm_capacity hm = capacity /\
  hashmap_get hash_str (S fuel) hm (Some k) = Ret NULL /\
  hashmap_remove hash_str (S fuel) hm (Some k) = Ret (hm, 0).
Proof.
  unfold hashmap_create. destruct malloc_ok; [|discriminate].
  destruct calloc_ok; [|discriminate]. intros [= <-] Hcap.
  split; [apply (fresh_well_formed capacity)|].
  split; [reflexivity|]. split; [reflexivity|].
  destruct (hash_key_range hash_str k 0 capacity Hcap) as (i & Hi & Hr).
  assert (Hl : replicate (Z.to_nat capacity) zero_slot !! Z.to_nat i = Some zero_slot)
    by (apply lookup_replicate_2; lia).
  unfold hashmap_get, hashmap_remove. cbn [hm_capacity hm_slots].
  rewrite Hi. cbn [bind probe]. rewrite Hl. cbn. split; reflexivity.
Qed.

End RoundTrips.

(** ** Tables built by inserts alone *)

Section InsertOnly.

Variable hash_str : string -> Z.

Lemma probes_deterministic slots capacity k index checks n n' r r' :
  probes hash_str slots capacity k index checks n r ->
  probes hash_str slots capacity k index checks n' r' ->
  r = r'.
Proof.
  intros H H'.
  pose proof (probe_complete _ _ _ _ _ _ _ _ H (S (Nat.max n n')) ltac:(lia)) as E.
  pose proof (probe_complete _ _ _ _ _ _ _ _ H' (S (Nat.max n n')) ltac:(lia)) as E'.
  congruence.
Qed.

Lemma unremoved_occupied s :
  unremoved s -> occupied s = true -> exists k v, s = live k v /\ v <> NULL.
Proof. intros [-> | H] Ho; [discriminate Ho | exact H]. Qed.

Lemma unremoved_inserted s :
  unremoved s -> slot_state s = INSERTED -> exists k v, s = live k v /\ v <> NULL.
Proof. intros [-> | H] Hs; [discriminate Hs | exact H]. Qed.

(** In a settled array without removed slots no key sits in two slots. *)
Lemma settled_distinct slots capacity :
  Forall unremoved slots -> settled hash_str slots capacity -> distinct_keys slots.
Proof.
  intros Hall Hset i1 i2 s1 s2 H1 H2 Hs1 Hs2 Hk.
  destruct (unremoved_inserted s1 (Forall_lookup_1 _ _ _ _ Hall H1) Hs1)
    as (k1 & v1 & -> & _).
  destruct (unremoved_inserted s2 (Forall_lookup_1 _ _ _ _ Hall H2) Hs2)
    as (k2 & v2 & -> & _).
  cbn in Hk. injection Hk as <-.
  destruct (Hset i1 _ H1 eq_refl) as (k & i0 & n & j & Hk1 & Hh & Hj & Hp).
  destruct (Hset i2 _ H2 eq_refl) as (k' & i0' & n' & j' & Hk2 & Hh' & Hj' & Hp').
  cbn in Hk1, Hk2. injection Hk1 as <-. injection Hk2 as <-.
  rewrite Hh in Hh'. injection Hh' as <-.
  pose proof (probes_deterministic _ _ _ _ _ _ _ _ _ Hp Hp') as E.
  injection E as E _. congruence.
Qed.

Lemma slot_insert_unremoved fuel sd slots capacity k v cpy slots' res :
  Forall unremoved slots ->
  v <> NULL ->
  hashtable_slot_insert hash_str fuel sd (Some slots) capacity (Some k) v cpy
    = Ret (Some slots', res) ->
  Forall unremoved slots'.
Proof.
  intros Hall Hv H. apply slot_insert_inv in H.
  destruct H as (i0 & n & r & _ & _ & Hpr &
    [(s & Hr & _ & [= ->])|[(_ & _ & [= ->])|(_ & _ & [= ->] & _)]]);
    [| |exact Hall].
  - apply Forall_insert; [exact Hall|].
    apply probes_final in Hpr. rewrite Hr in Hpr. destruct Hpr as (Hl & Ho & Hk).
    destruct (unremoved_occupied s (Forall_lookup_1 _ _ _ _ Hall Hl) Ho)
      as (k' & v' & -> & _).
    right. exists k', v. split; [reflexivity | exact Hv].
  - apply Forall_insert; [exact Hall|].
    right. exists k, v. split; [reflexivity | exact Hv].
Qed.

(** [hashtable_slot_insert] keeps an array settled. *)
Lemma slot_insert_settled fuel sd slots capacity k v cpy slots' res :
  settled hash_str slots capacity ->
  hashtable_slot_insert hash_str fuel sd (Some slots) capacity (Some k) v cpy
    = Ret (Some slots', res) ->
  settled hash_str slots' capacity.
Proof.
  intros Hset H. apply slot_insert_inv in H.
  destruct H as (i0 & n & r & Hh & Hn & Hpr & Hcase).
  pose proof (probes_final _ _ _ _ _ _ _ _ Hpr) as Hf.
  assert (Hgen : forall x,
    occupied x = true -> slot_key x = Some k ->
    (forall s1, slots !! Z.to_nat (final_index r) = Some s1 -> occupied s1 = true ->
       occupied x = true /\ slot_key x = slot_key s1 /\ r = Hit (final_index r) s1) ->
    settled hash_str (<[Z.to_nat (final_index r) := x]> slots) capacity).
  { intros x Hox Hkx Hsame i s Hl Ho.
    assert (HJ : (Z.to_nat (final_index r) < length slots)%nat).
    { destruct r as [j sj|j]; cbn in *.
      - destruct Hf as (Hj & _). eapply lookup_lt_Some; eauto.
      - destruct Hf as (sj & Hj & _). eapply lookup_lt_Some; eauto. }
    destruct (decide (i = Z.to_nat (final_index r))) as [->|Hneq].
    - rewrite list_lookup_insert_eq in Hl by exact HJ. injection Hl as <-.
      exists k, i0, n, (final_index r). repeat split; auto.
      apply probes_update; assumption.
    - rewrite list_lookup_insert_ne in Hl by congruence.
      destruct (Hset i s Hl Ho) as (ki & i0' & n' & j' & Hki & Hh' & Hj' & Hp').
      exists ki, i0', n', j'. repeat split; auto.
      apply probes_frame; [exact Hp'|].
      intros s1 Hs1 Ho1. destruct (Hsame s1 Hs1 Ho1) as (_ & Hks & Hr).
      repeat split; auto.
      intros Hk1. rewrite Hr in Hpr, Hf. destruct Hf as (_ & _ & Hkf).
      assert (ki = k) by congruence. subst ki.
      rewrite Hh in Hh'. injection Hh' as <-.
      pose proof (probes_deterministic _ _ _ _ _ _ _ _ _ Hpr Hp') as E.
      injection E as E _. apply Hneq. rewrite <- Hj'. congruence. }
  destruct Hcase as [(s & Hr & _ & [= ->])|[(Hr & _ & [= ->])|(_ & _ & [= ->] & _)]];
    [| |exact Hset].
  - rewrite Hr in Hf. destruct Hf as (Hl & Ho & Hk).
    apply Hgen; [rewrite occupied_overwrite; exact Ho | exact Hk |].
    intros s1 Hs1 _. rewrite Hl in Hs1. injection Hs1 as <-.
    rewrite occupied_overwrite. auto.
  - rewrite Hr in Hf. destruct Hf as (s0 & Hl & Ho).
    apply Hgen; [reflexivity | reflexivity |].
    intros s1 Hs1 Ho1. congruence.
Qed.

Lemma rehash_settled fuel old capacity :
  Forall unremoved old ->
  forall n (i : nat) nw res,
    Forall unremoved nw ->
    settled hash_str nw capacity ->
    rehash hash_str fuel (Some old) (Some nw) capacity (Z.of_nat i) n = Ret res ->
    exists nw', res = Some nw' /\ Forall unremoved nw' /\
                settled hash_str nw' capacity.
Proof.
  intros Hold. induction n as [|n IH]; intros i nw res Hnw Hset Hr.
  - injection Hr as <-. eauto.
  - cbn [rehash] in Hr. rewrite Nat2Z.id in Hr.
    destruct (old !! i) as [slot|] eqn:Hslot; [|discriminate].
    replace (Z.of_nat i + 1) with (Z.of_nat (S i)) in Hr by lia.
    destruct (slot_state slot) eqn:Hstate; cbn [bind] in Hr;
      try (apply (IH (S i) nw res Hnw Hset Hr)).
    destruct (unremoved_inserted slot (Forall_lookup_1 _ _ _ _ Hold Hslot) Hstate)
      as (k & v & -> & Hv).
    cbn [slot_key slot_value live] in Hr.
    destruct (hashtable_slot_insert hash_str fuel true (Some nw) capacity
                (Some k) v 1) as [[ns rs]| |] eqn:Hins; try discriminate.
    cbn [bind fst] in Hr.
    destruct (slot_insert_array _ _ _ _ _ _ _ _ _ _ Hins) as (nw1 & -> & _).
    apply (IH (S i) nw1 res); [| |exact Hr].
    + eapply slot_insert_unremoved; eauto.
    + eapply slot_insert_settled; eauto.
Qed.

Lemma unremoved_no_tombstone slots :
  Forall unremoved slots -> Forall (fun s => slot_state s <> DELETED) slots.
Proof.
  intros H. eapply Forall_impl; [exact H|].
  intros s [-> | (k & v & -> & _)]; discriminate.
Qed.

Lemma found_entry fuel hm l k v :
  hm_slots hm = Some l ->
  Forall unremoved l ->
  found hash_str fuel hm k v ->
  exists i : nat, l !! i = Some (live k v).
Proof.
  intros Hsl Hall (l' & Hsl' & i0 & n & j & s & _ & _ & Hpr & Hv).
  rewrite Hsl in Hsl'. injection Hsl' as <-.
  apply probes_final in Hpr. destruct Hpr as (Hl & Ho & Hk).
  destruct (unremoved_occupied s (Forall_lookup_1 _ _ _ _ Hall Hl) Ho)
    as (k' & v' & -> & _).
  cbn in Hk, Hv. injection Hk as ->. subst v'. eauto.
Qed.

(** A resize of such a table gives such a table, in which every key found
    before is found with the same value. *)
Lemma expand_insert_only fuel hm hm1 c :
  insert_only hash_str hm ->
  hashtable_expand hash_str fuel true hm = Ret (hm1, c) ->
  insert_only hash_str hm1 /\ c = hm_capacity hm1 /\
  forall k v, found hash_str fuel hm k v -> found hash_str fuel hm1 k v.
Proof.
  intros (l & Hsl & Hlen & Hall & Hset) He.
  pose proof He as Hcap. apply expand_capacity in Hcap. destruct Hcap as (-> & _ & Hc).
  unfold hashtable_expand in He. rewrite Hsl in He.
  set (c' := wrap (hm_capacity hm * HT_EXPANSION_FACTOR)) in *.
  destruct (rehash hash_str fuel (Some l) _ c' 0 _) as [res| |] eqn:Hr;
    try discriminate.
  cbn [bind] in He. injection He as <-.
  change 0 with (Z.of_nat 0) in Hr at 1.
  assert (Hzero : Forall unremoved (replicate (Z.to_nat c') zero_slot))
    by (apply Forall_replicate; left; reflexivity).
  assert (Hzset : settled hash_str (replicate (Z.to_nat c') zero_slot) c').
  { intros i s Hl Ho. apply lookup_replicate in Hl. destruct Hl as (-> & _).
    discriminate Ho. }
  destruct (rehash_settled fuel l c' Hall _ _ _ _ Hzero Hzset Hr)
    as (nw' & -> & Hall' & Hset').
  apply (rehash_stored hash_str fuel l c' (settled_distinct l _ Hall Hset)) in Hr;
    [|apply unremoved_no_tombstone; exact Hzero | intros; lia].
  destruct Hr as (nw'' & [= <-] & Hlen' & _ & Hst).
  split; [|split; [reflexivity|]].
  - exists nw'. cbn. rewrite Hlen', length_replicate. auto.
  - intros k v Hf. destruct (found_entry fuel hm l k v Hsl Hall Hf) as (i & Hi).
    exists nw'. split; [reflexivity|]. cbn [hm_capacity].
    apply (Hst i k v); [|exact Hi]. apply lookup_lt_Some in Hi. lia.
Qed.

(** One insert: the table stays of this kind, the key is found with the
    value, and every other key found before is found with its value. *)
Lemma insert_insert_only fuel hm hm' k v res :
  insert_only hash_str hm ->
  v <> NULL ->
  hashmap_insert hash_str fuel true true hm (Some k) v = Ret (hm', res) ->
  insert_only hash_str hm' /\
  found hash_str fuel hm' k v /\
  forall k' v', k' <> k -> found hash_str fuel hm k' v' -> found hash_str fuel hm' k' v'.
Proof.
  intros Hio Hv H. unfold hashmap_insert in H.
  destruct Hio as (l & Hsl & Hlen & Hall & Hset). rewrite Hsl in H.
  destruct (Z.eqb_spec v NULL) as [E|_]; [contradiction|].
  assert (He : forall e,
    (if hm_size hm >=? hm_capacity hm / HT_EXPANSION_FACTOR
     then hashtable_expand hash_str fuel true hm
     else Ret (hm, hm_capacity hm)) = Ret e ->
    insert_only hash_str e.1 /\ e.2 = hm_capacity e.1 /\
    forall k v, found hash_str fuel hm k v -> found hash_str fuel e.1 k v).
  { intros [hm1 c]. destruct (_ >=? _).
    - intros He. apply (expand_insert_only fuel hm hm1 c); [|exact He].
      exists l. auto.
    - intros [= <- <-]. cbn. split; [exists l; auto | auto]. }
  destruct (if hm_size hm >=? hm_capacity hm / HT_EXPANSION_FACTOR
            then hashtable_expand hash_str fuel true hm
            else Ret (hm, hm_capacity hm)) as [e| |]; try discriminate.
  destruct (He e eq_refl) as ((l1 & Hsl1 & Hlen1 & Hall1 & Hset1) & Hc & Hkeep).
  clear He. cbn [bind] in H. rewrite Hsl1, Hc in H.
  destruct (hashtable_slot_insert hash_str fuel true (Some l1) (hm_capacity e.1)
              (Some k) v 0) as [[ns rs]| |] eqn:Hins; try discriminate.
  cbn [bind fst snd] in H.
  destruct (slot_insert_array _ _ _ _ _ _ _ _ _ _ Hins) as (l2 & -> & Hlen2).
  pose proof (slot_insert_unremoved _ _ _ _ _ _ _ _ _ Hall1 Hv Hins) as Hall2.
  pose proof (slot_insert_settled _ _ _ _ _ _ _ _ _ Hset1 Hins) as Hset2.
  assert (Hrs : exists p, rs = Some p).
  { pose proof Hins as Hi. apply slot_insert_inv in Hi.
    destruct Hi as (? & ? & ? & _ & _ & _ &
      [(? & _ & -> & _)|[(_ & -> & _)|(_ & _ & _ & _ & ?)]]); eauto; discriminate. }
  destruct Hrs as (p & ->).
  pose proof (slot_insert_stored _ _ _ _ _ _ _ _ _ _ Hins) as Hst.
  injection H as <- _.
  split; [|split].
  - exists l2. cbn. repeat split; try congruence; assumption.
  - exists l2. cbn. auto.
  - intros k' v' Hne Hf. destruct (Hkeep k' v' Hf) as (l1' & Hsl1' & Hst').
    rewrite Hsl1 in Hsl1'. injection Hsl1' as <-.
    exists l2. cbn. split; [reflexivity|].
    eapply slot_insert_frame; eauto.
Qed.

Lemma run_inserts fuel : forall ops hm hm' (acc : string -> option Z),
  Forall is_insert ops ->
  insert_only hash_str hm ->
  (forall k v, acc k = Some v -> found hash_str fuel hm k v) ->
  run hash_str fuel ops hm = Ret hm' ->
  insert_only hash_str hm' /\
  forall k v, last_value ops k (acc k) = Some v -> found hash_str fuel hm' k v.
Proof.
  induction ops as [|o ops IH]; intros hm hm' acc Hops Hio Hacc Hrun.
  - injection Hrun as <-. auto.
  - inversion Hops as [|? ? (k0 & v0 & -> & Hv0) Hops']; subst.
    cbn [run perform] in Hrun.
    destruct (hashmap_insert hash_str fuel true true hm (Some k0) v0)
      as [[hm1 res]| |] eqn:Hins; try discriminate.
    cbn [bind fst] in Hrun.
    destruct (insert_insert_only fuel hm hm1 k0 v0 res Hio Hv0 Hins)
      as (Hio1 & Hk0 & Hothers).
    destruct (IH hm1 hm' (fun k => if String.eqb k0 k then Some v0 else acc k)
                Hops' Hio1) as (Hio' & Hfinal); [|exact Hrun|].
    + intros k v. destruct (String.eqb_spec k0 k) as [->|Hne].
      * intros [= <-]. exact Hk0.
      * intros Ha. apply Hothers; [congruence | apply Hacc; exact Ha].
    + split; [exact Hio'|]. intros k v Hl. apply Hfinal. exact Hl.
Qed.

(** When a sequence of inserts of non-null values into a table just
    created returns, with or without resizes on the way, the table holds
    no key in two slots, and a lookup of every key inserted returns the
    value of its last insert. *)
Theorem inserts_from_fresh (fuel : nat) (capacity : Z) (ops : list operation)
    (hm : HashMap) :
  Forall is_insert ops ->
  run hash_str fuel ops (fresh capacity) = Ret hm ->
  (exists slots, hm_slots hm = Some slots /\ distinct_keys slots) /\
  forall k v, last_value ops k None = Some v ->
    hashmap_get hash_str fuel hm (Some k) = Ret v.
Proof.
  intros Hops Hrun.
  destruct (run_inserts fuel ops (fresh capacity) hm (fun _ => None) Hops)
    as ((l & Hsl & Hlen & Hall & Hset) & Hfinal); [| |exact Hrun|].
  - exists (replicate (Z.to_nat capacity) zero_slot). cbn.
    split; [reflexivity|]. split; [apply length_replicate|].
    split; [apply Forall_replicate; left; reflexivity|].
    intros i s Hl Ho. apply lookup_replicate in Hl. destruct Hl as (-> & _).
    discriminate Ho.
  - discriminate.
  - split.
    + exists l. split; [exact Hsl|]. eapply settled_distinct; eauto.
    + intros k v Hl. destruct (Hfinal k v Hl) as (l' & Hsl' & Hst).
      eapply stored_get; eauto.
Qed.

End InsertOnly.

(** ** The load of a table *)

Lemma occupied_count_cons s l :
  occupied_count (s :: l) =
    ((if occupied s then 1 else 0) + occupied_count l)%nat.
Proof.
  unfold occupied_count. rewrite filter_cons.
  destruct (decide (occupied s = true)) as [->|Hn]; [reflexivity|].
  destruct (occupied s); [contradiction | reflexivity].
Qed.

Lemma occupied_count_app l1 l2 :
  occupied_count (l1 ++ l2) = (occupied_count l1 + occupied_count l2)%nat.
Proof.
  induction l1 as [|s l1 IH]; [reflexivity|].
  cbn [app]. rewrite !occupied_count_cons, IH. lia.
Qed.

Lemma occupied_count_insert l : forall (j : nat) s x,
  l !! j = Some s ->
  (occupied_count (<[j := x]> l) + (if occupied s then 1 else 0) =
   occupied_count l + (if occupied x then 1 else 0))%nat.
Proof.
  induction l as [|a l IH]; intros [|j] s x Hl; try discriminate.
  - injection Hl as ->. cbn [insert list_insert]. rewrite !occupied_count_cons. lia.
  - cbn in Hl. specialize (IH j s x Hl).
    change (<[S j := x]> (a :: l)) with (a :: <[j := x]> l).
    rewrite !occupied_count_cons. lia.
Qed.

Lemma occupied_count_replicate n : occupied_count (replicate n zero_slot) = 0%nat.
Proof.
  induction n as [|n IH]; [reflexivity|].
  cbn [replicate]. rewrite occupied_count_cons, IH. reflexivity.
Qed.

Lemma occupied_count_take l (i : nat) s :
  l !! i = Some s ->
  occupied_count (take (S i) l) =
    (occupied_count (take i l) + (if occupied s then 1 else 0))%nat.
Proof.
  intros Hl. rewrite (take_S_r l i s Hl), occupied_count_app.
  rewrite occupied_count_cons.
  change (occupied_count []) with 0%nat. lia.
Qed.

Section Load.

Variable hash_str : string -> Z.

(** A call of [hashtable_slot_insert] takes at most one more slot. *)
Lemma slot_insert_count fuel sd slots capacity k v cpy slots' res :
  hashtable_slot_insert hash_str fuel sd (Some slots) capacity (Some k) v cpy
    = Ret (Some slots', res) ->
  (occupied_count slots' <= occupied_count slots + 1)%nat.
Proof.
  intros H. apply slot_insert_inv in H.
  destruct H as (i0 & n & r & _ & _ & Hpr &
    [(s & Hr & _ & [= ->])|[(Hr & _ & [= ->])|(_ & _ & [= ->] & _)]]); [| |lia].
  - apply probes_final in Hpr. rewrite Hr in Hpr. destruct Hpr as (Hl & Ho & _).
    pose proof (occupied_count_insert slots _ s
                  (mkSlot (slot_key s) v (slot_state s)) Hl) as E.
    rewrite occupied_overwrite, Ho in E. lia.
  - apply probes_final in Hpr. rewrite Hr in Hpr. destruct Hpr as (s0 & Hl & Ho).
    pose proof (occupied_count_insert slots _ s0 (live k v) Hl) as E.
    rewrite Ho in E. cbn in E. lia.
Qed.

Lemma rehash_count fuel old capacity :
  Forall slot_shape old ->
  forall n (i : nat) nw res,
    (occupied_count nw <= occupied_count (take i old))%nat ->
    rehash hash_str fuel (Some old) (Some nw) capacity (Z.of_nat i) n = Ret res ->
    exists nw', res = Some nw' /\
      (occupied_count nw' <= occupied_count (take (i + n) old))%nat.
Proof.
  intros Hold. induction n as [|n IH]; intros i nw res Hc Hr.
  - injection Hr as <-. exists nw. rewrite Nat.add_0_r. auto.
  - cbn [rehash] in Hr. rewrite Nat2Z.id in Hr.
    destruct (old !! i) as [slot|] eqn:Hslot; [|discriminate].
    replace (Z.of_nat i + 1) with (Z.of_nat (S i)) in Hr by lia.
    replace (i + S n)%nat with (S i + n)%nat by lia.
    pose proof (occupied_count_take old i slot Hslot) as Ht.
    destruct (slot_state slot) eqn:Hstate; cbn [bind] in Hr;
      try (apply (IH (S i) nw res); [lia | exact Hr]).
    destruct (slot_shape_inserted slot (Forall_lookup_1 _ _ _ _ Hold Hslot) Hstate)
      as (k & v & -> & Hv).
    cbn [slot_key slot_value live] in Hr. cbn in Ht.
    destruct (hashtable_slot_insert hash_str fuel true (Some nw) capacity
                (Some k) v 1) as [[ns rs]| |] eqn:Hins; try discriminate.
    cbn [bind fst] in Hr.
    destruct (slot_insert_array _ _ _ _ _ _ _ _ _ _ Hins) as (nw1 & -> & _).
    pose proof (slot_insert_count _ _ _ _ _ _ _ _ _ Hins) as Hc1.
    apply (IH (S i) nw1 res); [lia | exact Hr].
Qed.

(** [hashmap_insert] keeps the load bounded: after it, as before, the
    taken slots are no more than the size field says, and the size field
    is at most half the capacity. *)
Theorem insert_load_bounded (fuel : nat) (calloc_ok strdup_ok : bool)
    (hm hm' : HashMap) (k : string) (v : Z) (res : option string) :
  well_formed hm ->
  0 < hm_capacity hm ->
  hm_capacity hm * HT_EXPANSION_FACTOR < size_t_modulus ->
  load_bounded hm ->
  hashmap_insert hash_str fuel calloc_ok strdup_ok hm (Some k) v = Ret (hm', res) ->
  hm_slots hm' <> None ->
  load_bounded hm'.
Proof.
  intros (l & Hsl & Hlen & Hall) Hc0 Hdouble (l0 & Hsl0 & Hcnt & Hsz) H Hsome.
  rewrite Hsl in Hsl0. injection Hsl0 as <-.
  unfold HT_EXPANSION_FACTOR in *.
  assert (Hhalf : hm_capacity hm / 2 * 2 <= hm_capacity hm)
    by (pose proof (Z.mul_div_le (hm_capacity hm) 2 ltac:(lia)); lia).
  unfold hashmap_insert, HT_EXPANSION_FACTOR in H. rewrite Hsl in H.
  destruct (v =? NULL).
  { injection H as <- _. exists l. auto. }
  assert (He : forall e,
    (if hm_size hm >=? hm_capacity hm / 2
     then hashtable_expand hash_str fuel calloc_ok hm
     else Ret (hm, hm_capacity hm)) = Ret e ->
    hm_size e.1 = hm_size hm /\
    hm_size hm + 1 <= hm_capacity e.1 / 2 < size_t_modulus /\
    forall l1, hm_slots e.1 = Some l1 ->
      (occupied_count l1 <= occupied_count l)%nat).
  { intros [hm1 c]. destruct (Z.geb_spec (hm_size hm) (hm_capacity hm / 2)).
    - intros He. pose proof He as Hcap. apply expand_capacity in Hcap.
      destruct Hcap as (_ & Hs1 & Hc1). unfold HT_EXPANSION_FACTOR in Hc1.
      rewrite wrap_small in Hc1 by lia.
      cbn [fst]. split; [exact Hs1|]. split.
      + rewrite Hc1, Z.div_mul by lia. lia.
      + intros l1 Hl1. unfold hashtable_expand in He. rewrite Hsl in He.
        destruct calloc_ok.
        * destruct (rehash hash_str fuel (Some l) _ _ 0 _) as [rs| |] eqn:Hr;
            try discriminate.
          cbn [bind] in He. injection He as <- _. cbn in Hl1. subst rs.
          change 0 with (Z.of_nat 0) in Hr at 1.
          apply (rehash_count fuel l _ Hall) in Hr;
            [|rewrite occupied_count_replicate; lia].
          destruct Hr as (nw' & [= <-] & Hc).
          rewrite firstn_all2 in Hc by (cbn; lia). exact Hc.
        * destruct (rehash hash_str fuel (Some l) None _ 0 _) as [rs| |] eqn:Hr;
            try discriminate.
          cbn [bind] in He. injection He as <- _. cbn in Hl1. subst rs.
          change 0 with (Z.of_nat 0) in Hr at 1.
          rewrite rehash_null in Hr by lia. discriminate Hr.
    - intros [= <- <-]. cbn [fst]. split; [reflexivity|]. split; [lia|].
      intros l1 Hl1. rewrite Hsl in Hl1. injection Hl1 as <-. lia. }
  destruct (if hm_size hm >=? hm_capacity hm / 2
            then hashtable_expand hash_str fuel calloc_ok hm
            else Ret (hm, hm_capacity hm)) as [e| |]; try discriminate.
  destruct (He e eq_refl) as (Hs1 & Hroom & Hcount). clear He.
  cbn [bind] in H.
  destruct (hm_slots e.1) as [l1|] eqn:Hsl1.
  2:{ cbn in H. injection H as <- _. cbn in Hsome. contradiction. }
  specialize (Hcount l1 eq_refl).
  destruct (hashtable_slot_insert hash_str fuel strdup_ok (Some l1) e.2 (Some k) v 0)
    as [[ns rs]| |] eqn:Hins; try discriminate.
  cbn [bind fst snd] in H.
  destruct (slot_insert_array _ _ _ _ _ _ _ _ _ _ Hins) as (l2 & -> & _).
  pose proof Hins as Hcnt2. apply slot_insert_count in Hcnt2.
  destruct rs as [p|]; injection H as <- _; exists l2; cbn;
    (split; [reflexivity|]).
  - unfold HT_EXPANSION_FACTOR. rewrite Hs1, wrap_small by lia. lia.
  - unfold HT_EXPANSION_FACTOR. assert (l2 = l1).
    { apply slot_insert_inv in Hins.
      destruct Hins as (? & ? & ? & _ & _ & _ &
        [(? & _ & ? & _)|[(_ & ? & _)|(_ & _ & ? & _)]]); congruence. }
    subst l2. rewrite Hs1. lia.
Qed.

(** [hashmap_remove] keeps the load bounded, and its decrement never
    takes the size field below zero. *)
Theorem remove_load_bounded (fuel : nat) (hm hm' : HashMap) (k : string) (r : Z) :
  load_bounded hm ->
  hm_capacity hm < size_t_modulus ->
  hashmap_remove hash_str fuel hm (Some k) = Ret (hm', r) ->
  load_bounded hm' /\ hm_size hm' = hm_size hm - r.
Proof.
  intros (l & Hsl & Hcnt & Hsz) Hcap H.
  assert (Hhalf : hm_capacity hm / HT_EXPANSION_FACTOR <= Z.max 0 (hm_capacity hm)).
  { unfold HT_EXPANSION_FACTOR.
    destruct (Z.le_gt_cases 0 (hm_capacity hm)).
    - pose proof (Z.mul_div_le (hm_capacity hm) 2 ltac:(lia)).
      assert (0 <= hm_capacity hm / 2) by (apply Z.div_pos; lia). lia.
    - assert (hm_capacity hm / 2 < 0) by (apply Z.div_lt_upper_bound; lia). lia. }
  unfold hashmap_remove in H.
  destruct (hash_key hash_str (Some k) 0 (hm_capacity hm)) as [i0| |];
    try discriminate.
  rewrite Hsl in H. cbn [bind] in H.
  destruct (probe hash_str fuel l (hm_capacity hm) (Some k) i0 0)
    as [[j s|j]| |] eqn:Hp; try discriminate; cbn [bind] in H;
    injection H as <- <-.
  - apply probe_sound in Hp. destruct Hp as (n & _ & Hpr).
    apply probes_final in Hpr. destruct Hpr as (Hl & Ho & _).
    pose proof (occupied_count_insert l _ s (mkSlot None NULL DELETED) Hl) as E.
    rewrite Ho in E. cbn in E.
    assert (Hw : wrap (hm_size hm - 1) = hm_size hm - 1)
      by (apply wrap_small; lia).
    split; [|cbn; exact Hw].
    eexists. cbn. split; [reflexivity|]. rewrite Hw. lia.
  - split; [exists l; auto | lia].
Qed.

End Load.

(** ** Releasing a table *)

Lemma free_keys_slots l : forall n (i : nat),
  (i + n <= length l)%nat ->
  free_keys (Some l) (Z.of_nat i) n = Ret (slot_key <$> take n (drop i l)).
Proof.
  induction n as [|n IH]; intros i Hb; [reflexivity|].
  cbn [free_keys]. rewrite Nat2Z.id.
  assert (Hi : (i < length l)%nat) by lia.
  destruct (lookup_lt_is_Some_2 l i Hi) as (s & Hs).
  rewrite Hs. replace (Z.of_nat i + 1) with (Z.of_nat (S i)) by lia.
  rewrite IH by lia. cbn [bind].
  rewrite (drop_S l s i Hs). reflexivity.
Qed.

Lemma free_keys_overrun l : forall n (i : nat),
  (i <= length l < i + n)%nat ->
  free_keys (Some l) (Z.of_nat i) n = Undefined.
Proof.
  induction n as [|n IH]; intros i Hb; [lia|].
  cbn [free_keys]. rewrite Nat2Z.id.
  destruct (l !! i) as [s|] eqn:Hs; [|reflexivity].
  apply lookup_lt_Some in Hs.
  replace (Z.of_nat i + 1) with (Z.of_nat (S i)) by lia.
  rewrite IH by lia. reflexivity.
Qed.

(** [hashmap_free] hands to [free] the key of every slot, once each and
    in index order, when the array has as many slots as the capacity
    field says; with fewer slots than that it reads past the array. *)
Theorem free_releases_slot_keys (hm : HashMap) (slots : list HashSlot) :
  hm_slots hm = Some slots ->
  (length slots = Z.to_nat (hm_capacity hm) ->
   hashmap_free hm = Ret (slot_key <$> slots)) /\
  ((length slots < Z.to_nat (hm_capacity hm))%nat ->
   hashmap_free hm = Undefined).
Proof.
  intros Hsl. unfold hashmap_free. rewrite Hsl.
  change 0 with (Z.of_nat 0). split; intros Hlen.
  - rewrite free_keys_slots by (cbn; lia).
    rewrite drop_0, firstn_all2 by lia. reflexivity.
  - apply free_keys_overrun. lia.
Qed.


(** ** Null keys *)

Section NullKeys.

Variable hash_str : string -> Z.

Lemma probe_null_key fuel slots capacity :
  probe hash_str (S fuel) slots capacity None 0 0 =
    match slots !! 0%nat with
    | Some s => if occupied s then Undefined else Ret (Miss 0)
    | None => Undefined
    end.
Proof.
  cbn [probe]. change (Z.to_nat 0) with 0%nat.
  destruct (slots !! 0%nat) as [s|]; [|reflexivity].
  destruct (occupied s); [|reflexivity].
  destruct (slot_key s); reflexivity.
Qed.

(** Unlike [hashmap_get], [hashmap_insert] does not check the key: below
    the resize threshold an insert of a null key with a non-null value
    has undefined behaviour on every table with an array, in [strcmp]
    when slot 0 is taken and in [strdup] when it is free. *)
Theorem insert_null_key (fuel : nat) (calloc_ok strdup_ok : bool)
    (hm : HashMap) (v : Z) :
  hm_slots hm <> None ->
  v <> NULL ->
  hm_size hm < hm_capacity hm / HT_EXPANSION_FACTOR ->
  hashmap_insert hash_str (S fuel) calloc_ok strdup_ok hm None v = Undefined.
Proof.
  intros Hsl Hv Hsize. unfold hashmap_insert.
  destruct (hm_slots hm) as [l|] eqn:El; [|contradiction].
  destruct (Z.eqb_spec v NULL) as [E|_]; [contradiction|].
  destruct (Z.geb_spec (hm_size hm) (hm_capacity hm / HT_EXPANSION_FACTOR));
    [lia|].
  cbn [bind fst snd]. rewrite El. unfold hashtable_slot_insert.
  rewrite hash_key_null. cbn [bind]. rewrite probe_null_key.
  destruct (l !! 0%nat) as [s|]; [|reflexivity].
  destruct (occupied s); reflexivity.
Qed.

(** Nor does [hashmap_remove]: the removal of a null key returns 0 and
    changes nothing when slot 0 is free, and has undefined behaviour, in
    [strcmp], when slot 0 is taken. *)
Theorem remove_null_key (fuel : nat) (hm : HashMap) (slots : list HashSlot)
    (s : HashSlot) :
  hm_slots hm = Some slots ->
  slots !! 0%nat = Some s ->
  hashmap_remove hash_str (S fuel) hm None =
    if occupied s then Undefined else Ret (hm, 0).
Proof.
  intros Hsl Hs. unfold hashmap_remove.
  rewrite hash_key_null, Hsl. cbn [bind]. rewrite probe_null_key, Hs.
  destruct (occupied s); reflexivity.
Qed.

End NullKeys.

(** * The further properties on tables of the scenarios *)

Lemma table_abcd_well_formed : well_formed table_abcd.
Proof. shaped. Defined.

Lemma capacity_8_usable : usable_capacity 8.
Proof. split; [unfold size_t_modulus; lia | discriminate]. Defined.

Lemma get_defined_witness :
  hashmap_get fnv32a_hash_str 8 table_abcd (Some "b") <> Undefined.
Proof.
  apply get_defined; [exact table_abcd_well_formed | exact capacity_8_usable].
Defined.

Lemma remove_defined_witness :
  hashmap_remove fnv32a_hash_str 8 table_abcd (Some "b") <> Undefined.
Proof.
  apply remove_defined; [exact table_abcd_well_formed | exact capacity_8_usable].
Defined.

Lemma insert_defined_witness :
  hashmap_insert fnv32a_hash_str 8 false true table_abcd (Some "e") 5 <> Undefined.
Proof.
  apply insert_defined;
    [exact table_abcd_well_formed | exact capacity_8_usable | reflexivity].
Defined.

Lemma insert_well_formed_witness : well_formed table_abcde.
Proof.
  apply (insert_well_formed fnv32a_hash_str 8 true table_abcd table_abcde
           "e" 5 (Some "e"));
    [exact table_abcd_well_formed | vm_compute; reflexivity].
Defined.

Lemma remove_well_formed_witness : well_formed table_acd.
Proof.
  apply (remove_well_formed fnv32a_hash_str 8 table_abcd table_acd (Some "b") 1);
    [exact table_abcd_well_formed | vm_compute; reflexivity].
Defined.

Lemma remove_outcome_witness :
  (1 = 0 /\ table_acd = table_abcd /\
   hashmap_get fnv32a_hash_str 8 table_abcd (Some "b") = Ret NULL) \/
  (1 = 1 /\
   exists slots j s,
     hm_slots table_abcd = Some slots /\
     slots !! Z.to_nat j = Some s /\
     slot_key s = Some "b" /\
     hashmap_get fnv32a_hash_str 8 table_abcd (Some "b") = Ret (slot_value s) /\
     table_acd = mkMap (Some (<[Z.to_nat j := tombstone]> slots))
                   (wrap (hm_size table_abcd - 1)) (hm_capacity table_abcd)).
Proof.
  apply (remove_outcome fnv32a_hash_str 8 table_abcd table_acd "b" 1).
  vm_compute; reflexivity.
Defined.

Lemma get_after_remove_witness :
  hashmap_get fnv32a_hash_str 8 table_acd (Some "b") = Ret NULL /\
  hashmap_remove fnv32a_hash_str 8 table_acd (Some "b") = Ret (table_acd, 0).
Proof.
  apply (get_after_remove fnv32a_hash_str 8 table_abcd table_acd "b").
  vm_compute; reflexivity.
Defined.

Lemma insert_outcome_witness :
  (hm_capacity table_abcde = hm_capacity table_abcd \/
   hm_capacity table_abcde = wrap (hm_capacity table_abcd * HT_EXPANSION_FACTOR)) /\
  "e" = "e" /\ 5 <> NULL /\
  hm_size table_abcde = wrap (hm_size table_abcd + 1) /\
  hashmap_get fnv32a_hash_str 8 table_abcde (Some "e") = Ret 5.
Proof.
  apply (insert_outcome fnv32a_hash_str 8 true true table_abcd table_abcde
           "e" 5 (Some "e")).
  vm_compute; reflexivity.
Defined.

Lemma insert_strdup_failure_witness :
  (@None string = None /\ fresh 8 = fresh 8) \/
  (None = Some "a" /\ exists v0 slots,
     hm_slots (fresh 8) = Some slots /\
     stored fnv32a_hash_str 8 slots (hm_capacity (fresh 8)) "a" v0).
Proof.
  apply (insert_strdup_failure fnv32a_hash_str 8 true (fresh 8) (fresh 8) "a" 1 None);
    [reflexivity | vm_compute; reflexivity].
Defined.

Lemma insert_keeps_other_keys_witness :
  hashmap_get fnv32a_hash_str 8 table_ai (Some "a") = Ret 1.
Proof.
  apply (insert_keeps_other_keys fnv32a_hash_str 8 true true table_a table_ai
           "i" "a" 2 1 (Some "i"));
    [reflexivity | vm_compute; reflexivity | discriminate
    | vm_compute; reflexivity | discriminate].
Defined.

Lemma remove_insert_restores_witness :
  hashmap_insert fnv32a_hash_str 8 true true table_acd (Some "b") 2
    = Ret (table_abcd, Some "b").
Proof.
  apply (remove_insert_restores fnv32a_hash_str 8 true table_abcd table_acd "b" 2);
    [ exact table_abcd_well_formed
    | split; [reflexivity | vm_compute; discriminate]
    | reflexivity
    | vm_compute; reflexivity
    | vm_compute; reflexivity ].
Defined.

Lemma create_empty_witness :
  well_formed (fresh 8) /\
  hm_size (fresh 8) = 0 /\ hm_capacity (fresh 8) = 8 /\
  hashmap_get fnv32a_hash_str 1 (fresh 8) (Some "a") = Ret NULL /\
  hashmap_remove fnv32a_hash_str 1 (fresh 8) (Some "a") = Ret (fresh 8, 0).
Proof.
  apply (create_empty fnv32a_hash_str true true 8 (fresh 8) 0 "a");
    [reflexivity | exact capacity_8_usable].
Defined.

Lemma inserts_from_fresh_witness :
  (exists slots, hm_slots table_abcde = Some slots /\ distinct_keys slots) /\
  forall k v,
    last_value [Insert "a" 1; Insert "b" 2; Insert "c" 3; Insert "d" 4;
                Insert "e" 5] k None = Some v ->
    hashmap_get fnv32a_hash_str 8 table_abcde (Some k) = Ret v.
Proof.
  apply (inserts_from_fresh fnv32a_hash_str 8 8).
  - repeat constructor; eexists _, _; (split; [reflexivity | discriminate]).
  - vm_compute; reflexivity.
Defined.

Lemma insert_load_bounded_witness : load_bounded table_abcde.
Proof.
  apply (insert_load_bounded fnv32a_hash_str 8 true true table_abcd table_abcde
           "e" 5 (Some "e")).
  - exact table_abcd_well_formed.
  - reflexivity.
  - reflexivity.
  - eexists. split; [reflexivity|]. split; vm_compute; discriminate.
  - vm_compute; reflexivity.
  - discriminate.
Defined.

Lemma remove_load_bounded_witness :
  load_bounded table_acd /\ hm_size table_acd = hm_size table_abcd - 1.
Proof.
  apply (remove_load_bounded fnv32a_hash_str 8 table_abcd table_acd "b" 1).
  - eexists. split; [reflexivity|]. split; vm_compute; discriminate.
  - reflexivity.
  - vm_compute; reflexivity.
Defined.

Lemma free_releases_slot_keys_witness :
  (length [zero_slot; live "a" 1] = Z.to_nat 2 ->
   hashmap_free (table_of [zero_slot; live "a" 1] 1 2)
     = Ret (slot_key <$> [zero_slot; live "a" 1])) /\
  ((length [zero_slot; live "a" 1] < Z.to_nat 2)%nat ->
   hashmap_free (table_of [zero_slot; live "a" 1] 1 2) = Undefined).
Proof.
  apply (free_releases_slot_keys (table_of [zero_slot; live "a" 1] 1 2)).
  reflexivity.
Defined.


Lemma expand_preserves_get_witness :
  16 = wrap (hm_capacity table_abcd * HT_EXPANSION_FACTOR) /\
  hm_capacity table_abcd_resized = 16 /\
  hm_size table_abcd_resized = hm_size table_abcd /\
  (exists nw, hm_slots table_abcd_resized = Some nw /\ length nw = Z.to_nat 16 /\
              Forall (fun s => slot_state s <> DELETED) nw) /\
  forall (i : nat) k v,
    [zero_slot; zero_slot; live "c" 3; live "d" 4;
     live "a" 1; live "b" 2; zero_slot; zero_slot] !! i = Some (live k v) ->
    hashmap_get fnv32a_hash_str 8 table_abcd_resized (Some k) = Ret v.
Proof.
  apply (expand_preserves_get fnv32a_hash_str 8 table_abcd table_abcd_resized).
  - reflexivity.
  - reflexivity.
  - intros i1 i2 s1 s2 H1 H2 K1 K2 E.
    repeat (destruct i1 as [|i1]; cbn in H1; try discriminate H1);
      injection H1 as <-; try discriminate K1;
      repeat (destruct i2 as [|i2]; cbn in H2; try discriminate H2);
      injection H2 as <-; try discriminate K2; try discriminate E;
      reflexivity.
  - vm_compute; reflexivity.
Defined.

Lemma insert_null_key_witness :
  hashmap_insert fnv32a_hash_str 1 true true table_a None 7 = Undefined.
Proof.
  apply (insert_null_key fnv32a_hash_str 0 true true table_a 7);
    [discriminate | discriminate | reflexivity].
Defined.

Lemma remove_null_key_witness :
  hashmap_remove fnv32a_hash_str 1 table_a None = Ret (table_a, 0).
Proof.
  apply (remove_null_key fnv32a_hash_str 0 table_a
           [zero_slot; zero_slot; zero_slot; zero_slot;
            live "a" 1; zero_slot; zero_slot; zero_slot] zero_slot);
    reflexivity.
Defined.
